(** * node-migrate: the migration set of lib/set.js

    A shallow embedding of [lib/set.js]: the [Set] object (registered
    migrations and the cursor [pos]), the database round trips of [load]
    and [save], target resolution and slice computation in [_migrate], and
    the callback-chained drain [next].

    Asynchronous callbacks are written in continuation-passing style, the
    way the source passes [fn]; every callback of the source is called at
    most once and in tail position, so a continuation is a function from
    the world to the world.  What the outside does (the MySQL server, the
    migrations' own [up] and [down] functions) is fixed beforehand by an
    environment and by each migration's outcome.

    Taken for granted: the [error] event has a listener (Node's emitter
    throws without one); [migrate] is entered through [up] and [down], so
    the direction is one of the two strings; the column [pos] holds an
    integer and the column [migrations] a text.

    Limits of the embedding: a position is an integer of [Z], which
    agrees with the number of JavaScript as long as it stays within
    [MAX_SAFE_INTEGER]; an operation has one outcome, that of the run
    under study; the JSON text written and read is that of the builtins
    for titles without control characters and for the texts [save]
    writes.  Hypotheses on the position (a bound by the registry or by
    [MAX_SAFE_INTEGER]) and on the titles ([printable_titles]) mark where
    these limits matter, and the failure to decode a stored text is
    stated for any decoder ([load_with]). *)

From Stdlib Require Import ZArith String Ascii Lia.
From stdpp Require Import base list.

Local Open Scope Z_scope.

Set Warnings "-register-all".

(** ** JavaScript primitives used by the source *)

Module Js.

(** The clamping of one bound of [Array.prototype.slice] against the
    array length: a negative bound counts from the end. *)
Definition relative (len k : Z) : Z :=
  if k <? 0 then Z.max (len + k) 0 else Z.min k len.

(** [arr.slice(start, final)]. *)
Definition slice {A : Type} (arr : list A) (start final : Z) : list A :=
  let len := Z.of_nat (length arr) in
  let k := relative len start in
  let e := relative len final in
  take (Z.to_nat (Z.max (e - k) 0)) (drop (Z.to_nat k) arr).

(** Truthiness of an optional string argument: [undefined] and the
    empty string are falsy, every other string is truthy. *)
Definition truthy (v : option string) : bool :=
  match v with
  | Some (String _ _) => true
  | _ => false
  end.

(** String concatenation with [+]; [undefined] prints as its name. *)
Definition to_string (v : option string) : string :=
  match v with
  | Some s => s
  | None => "undefined"
  end.

End Js.

(** ** Errors *)

(** An error object: the optional [code] property that [migrate] inspects,
    and a message. *)
Record Error := mkError { code : option string; message : string }.

(** [c == err.code], where the property may be absent. *)
Definition has_code (c : string) (err : Error) : bool :=
  match code err with
  | Some c' => String.eqb c c'
  | None => false
  end.

(** ** JSON text, as far as the migration table stores it *)

Module JSON.

Inductive value :=
| Null
| Bool (b : bool)
| Number (n : Z)
| Str (s : string)
| Array (items : list value)
| Object (members : list (string * value)).

Definition dquote : ascii := ascii_of_nat 34.
Definition backslash : ascii := ascii_of_nat 92.

Definition is_ws (c : ascii) : bool :=
  let n := nat_of_ascii c in
  ((n =? 32) || (n =? 9) || (n =? 10) || (n =? 13))%nat.

Definition is_digit (c : ascii) : bool :=
  let n := nat_of_ascii c in
  ((48 <=? n) && (n <=? 57))%nat.

Fixpoint skip_ws (s : string) : string :=
  match s with
  | String c rest => if is_ws c then skip_ws rest else s
  | EmptyString => s
  end.

(** [expect lit s] strips the literal [lit] from the front of [s]. *)
Fixpoint expect (lit s : string) : option string :=
  match lit with
  | EmptyString => Some s
  | String c lit' =>
      match s with
      | String d s' => if Ascii.eqb c d then expect lit' s' else None
      | EmptyString => None
      end
  end.

(** Digits of an integer literal, most significant first. *)
Fixpoint digits (acc : Z) (s : string) : Z * string :=
  match s with
  | String c rest =>
      if is_digit c
      then digits (10 * acc + (Z.of_nat (nat_of_ascii c) - 48)) rest
      else (acc, s)
  | EmptyString => (acc, s)
  end.

Definition unescape (c : ascii) : option ascii :=
  if Ascii.eqb c dquote then Some dquote
  else if Ascii.eqb c backslash then Some backslash
  else if Ascii.eqb c "/" then Some "/"%char
  else if Ascii.eqb c "n" then Some (ascii_of_nat 10)
  else if Ascii.eqb c "t" then Some (ascii_of_nat 9)
  else if Ascii.eqb c "r" then Some (ascii_of_nat 13)
  else if Ascii.eqb c "b" then Some (ascii_of_nat 8)
  else if Ascii.eqb c "f" then Some (ascii_of_nat 12)
  else None.

(** The characters of a string literal after its opening quote, up to
    and including the closing quote. *)
Fixpoint chars (s : string) : option (string * string) :=
  match s with
  | EmptyString => None
  | String c rest =>
      if Ascii.eqb c dquote then Some (EmptyString, rest)
      else if Ascii.eqb c backslash then
        match rest with
        | String e rest' =>
            match unescape e, chars rest' with
            | Some u, Some (body, tail) => Some (String u body, tail)
            | _, _ => None
            end
        | EmptyString => None
        end
      else if (nat_of_ascii c <? 32)%nat then None
      else
        match chars rest with
        | Some (body, tail) => Some (String c body, tail)
        | None => None
        end
  end.

(** Recursive descent; [fuel] bounds the number of nested calls. *)
Fixpoint parse_value (fuel : nat) (s : string) : option (value * string) :=
  match fuel with
  | O => None
  | S fuel =>
      match skip_ws s with
      | EmptyString => None
      | String c rest =>
          if Ascii.eqb c "n" then
            option_map (pair Null) (expect "ull" rest)
          else if Ascii.eqb c "t" then
            option_map (pair (Bool true)) (expect "rue" rest)
          else if Ascii.eqb c "f" then
            option_map (pair (Bool false)) (expect "alse" rest)
          else if Ascii.eqb c dquote then
            match chars rest with
            | Some (body, tail) => Some (Str body, tail)
            | None => None
            end
          else if Ascii.eqb c "-" then
            match rest with
            | String d _ =>
                if is_digit d
                then let '(n, tail) := digits 0 rest in
                     Some (Number (- n), tail)
                else None
            | EmptyString => None
            end
          else if is_digit c then
            let '(n, tail) := digits 0 (String c rest) in Some (Number n, tail)
          else if Ascii.eqb c "[" then
            match skip_ws rest with
            | String "]" tail => Some (Array [], tail)
            | _ => parse_items fuel [] rest
            end
          else if Ascii.eqb c "{" then
            match skip_ws rest with
            | String "}" tail => Some (Object [], tail)
            | _ => parse_members fuel [] rest
            end
          else None
      end
  end
with parse_items (fuel : nat) (acc : list value) (s : string)
  : option (value * string) :=
  match fuel with
  | O => None
  | S fuel =>
      match parse_value fuel s with
      | Some (v, rest) =>
          match skip_ws rest with
          | String "," rest' => parse_items fuel (v :: acc) rest'
          | String "]" tail => Some (Array (reverse (v :: acc)), tail)
          | _ => None
          end
      | None => None
      end
  end
with parse_members (fuel : nat) (acc : list (string * value)) (s : string)
  : option (value * string) :=
  match fuel with
  | O => None
  | S fuel =>
      match skip_ws s with
      | String c rest =>
          if Ascii.eqb c dquote then
            match chars rest with
            | Some (key, rest1) =>
                match skip_ws rest1 with
                | String ":" rest2 =>
                    match parse_value fuel rest2 with
                    | Some (v, rest3) =>
                        match skip_ws rest3 with
                        | String "," rest4 =>
                            parse_members fuel ((key, v) :: acc) rest4
                        | String "}" tail =>
                            Some (Object (reverse ((key, v) :: acc)), tail)
                        | _ => None
                        end
                    | None => None
                    end
                | _ => None
                end
            | None => None
            end
          else None
      | EmptyString => None
      end
  end.

(** The exception of [JSON.parse]: a [SyntaxError], which carries no
    [code] property. *)
Definition SyntaxError : Error :=
  {| code := None; message := "Unexpected token in JSON" |}.

(** [JSON.parse(text)]: the parsed value, or the exception thrown.  The
    reader covers the texts [save] writes and their like (integers,
    strings with the short escapes, arrays, objects); it knows no
    fraction, no exponent and no escape by code point, and it reads an
    integer with leading zeros, in which it differs from the builtin. *)
Definition parse (text : string) : Error + value :=
  match parse_value (2 * String.length text + 2) text with
  | Some (v, rest) =>
      match skip_ws rest with
      | EmptyString => inr v
      | String _ _ => inl SyntaxError
      end
  | None => inl SyntaxError
  end.

(** A string literal: quotes and backslashes escaped. *)
Fixpoint escape (s : string) : string :=
  match s with
  | EmptyString => EmptyString
  | String c rest =>
      if Ascii.eqb c dquote || Ascii.eqb c backslash
      then String backslash (String c (escape rest))
      else String c (escape rest)
  end.

Definition quote (s : string) : string :=
  String dquote (String.append (escape s) (String dquote EmptyString)).

End JSON.

(** ** Migrations *)

(** What a migration's [up] or [down] function does with the callback it
    is given: call it without an error, call it with a (truthy) error, or
    never call it. *)
Inductive Outcome :=
| Done
| Failed (err : Error)
| Pending.

Inductive Direction := Up | Down.

Module Migration.

(** Modelled from the spec: the migration object, whose constructor is
    not part of [lib/set.js]: [{ title, up, down }], a title and two
    asynchronous operations.  The operations are user code; each is
    represented by its outcome. *)
Record t := mk { title : string; up : Outcome; down : Outcome }.

(** [migration[direction]]. *)
Definition op (direction : Direction) (migration : t) : Outcome :=
  match direction with
  | Up => up migration
  | Down => down migration
  end.

End Migration.

(** [JSON.stringify(this.migrations)]: functions are left out, so each
    migration is written as an object with its title alone.  A control
    character in a title, which the builtin escapes, is written as it
    is: the text is that of the builtin for titles without one. *)
Definition stringify_migrations (migrations : list Migration.t) : string :=
  let item m :=
    String.append "{"
      (String.append (JSON.quote "title")
         (String.append ":"
            (String.append (JSON.quote (Migration.title m)) "}"))) in
  String.append "["
    (String.append (String.concat "," (map item migrations)) "]").

(** ** The world: the set, the connection handle, the table, the log *)

(** The one row of table [migration] (the row with [id=1]). *)
Module TableRow.
Record t := mk { migrations : string; pos : Z }.
End TableRow.

(** The object [load] hands to its callback: the row with its
    [migrations] column decoded. *)
Module Loaded.
Record t := mk { migrations : JSON.value; pos : Z }.
End Loaded.

(** Everything observable of a run, in the order it happens. *)
Inductive Event :=
| Emit_load
| Emit_migration (migration : Migration.t) (direction : Direction)
| Emit_complete
| Emit_save
| Emit_error (err : Error)
| Invoke (migration : Migration.t) (direction : Direction) (pos_seen : Z)
| Db_connect
| Db_select
| Db_upsert (params : TableRow.t)
| Db_destroy
| Console_error (text : string)
| Process_exit (status : Z).

(** The [Set] instance: [this.migrations], [this.path], [this.pos]. *)
Module MigrationSet.
Record t := mk { migrations : list Migration.t; path : string; pos : Z }.

(** [new Set(path)]. *)
Definition new (path : string) : t :=
  {| migrations := []; path := path; pos := 0 |}.
End MigrationSet.

Record World := mkWorld {
  self : MigrationSet.t;       (* the set the methods are called on *)
  db : bool;                   (* the module variable [db] has been assigned *)
  table : option TableRow.t;   (* contents of table [migration] *)
  log : list Event             (* events so far, oldest first *)
}.

(** How the database answers during one run. *)
Record Env := mkEnv {
  connect_error : option Error;   (* what [db.connect] reports *)
  select_error : option Error;    (* what the SELECT of [load] reports *)
  upsert_error : option Error     (* what the INSERT of [save] reports *)
}.

Definition record (e : Event) (w : World) : World :=
  {| self := self w; db := db w; table := table w; log := log w ++ [e] |}.

Definition set_pos (p : Z) (w : World) : World :=
  {| self := {| MigrationSet.migrations := MigrationSet.migrations (self w);
                MigrationSet.path := MigrationSet.path (self w);
                MigrationSet.pos := p |};
     db := db w; table := table w; log := log w |}.

Definition set_db (w : World) : World :=
  {| self := self w; db := true; table := table w; log := log w |}.

Definition set_table (r : TableRow.t) (w : World) : World :=
  {| self := self w; db := db w; table := Some r; log := log w |}.

Definition migrations (w : World) : list Migration.t :=
  MigrationSet.migrations (self w).

Definition pos (w : World) : Z := MigrationSet.pos (self w).

(** ** The methods of [Set] *)

(** [connectDb(fn)]: assigns [db], connects, and either emits the
    connection error or calls [fn]. *)
Definition connectDb (env : Env) (fn : World -> World) (w : World) : World :=
  let w := record Db_connect (set_db w) in
  match connect_error env with
  | Some err => record (Emit_error err) w
  | None => fn w
  end.

(** [disconnectDb(err, result)]: the callback of the INSERT query. *)
Definition disconnectDb (err : option Error) (w : World) : World :=
  match err with
  | Some err => record (Emit_error err) w
  | None => record Db_destroy (record Emit_save w)
  end.

(** The inner [saveToDatabase] of [save]. *)
Definition saveToDatabase (env : Env) (w : World) : World :=
  let params :=
    {| TableRow.migrations := stringify_migrations (migrations w);
       TableRow.pos := pos w |} in
  let w := record (Db_upsert params) w in
  match upsert_error env with
  | Some err => disconnectDb (Some err) w
  | None => disconnectDb None (set_table params w)
  end.

(** [save()]. *)
Definition save (env : Env) (w : World) : World :=
  if negb (db w)
  then connectDb env (saveToDatabase env) w
  else saveToDatabase env w.

(** The row [load] works on: [result[0] || { migrations: '[]', pos: 0 }],
    the stored row or the default for an empty table. *)
Definition stored_row (w : World) : TableRow.t :=
  match table w with
  | Some row => row
  | None => {| TableRow.migrations := "[]"; TableRow.pos := 0 |}
  end.

(** [load(fn)]: [fn] receives the error or the loaded object. *)
Definition load (env : Env) (fn : Error + Loaded.t -> World -> World)
    (w : World) : World :=
  let w := record Emit_load w in
  connectDb env
    (fun w =>
       let w := record Db_select w in
       match select_error env with
       | Some err => fn (inl err) w
       | None =>
           let result := stored_row w in
           match JSON.parse (TableRow.migrations result) with
           | inl err => fn (inl err) w
           | inr decoded =>
               fn (inr {| Loaded.migrations := decoded;
                          Loaded.pos := TableRow.pos result |}) w
           end
       end)
    w.

(** [positionOfMigration(migrations, filename)], the loop started at
    index [i]. *)
Fixpoint positionOfMigration_from (i : Z) (migrations : list Migration.t)
    (filename : string) : Z :=
  match migrations with
  | [] => -1
  | m :: rest =>
      if String.eqb (Migration.title m) filename then i
      else positionOfMigration_from (i + 1) rest filename
  end.

Definition positionOfMigration (migrations : list Migration.t)
    (filename : string) : Z :=
  positionOfMigration_from 0 migrations filename.

(** The inner [next(err, migration)] of [_migrate].  The source calls it
    with [migrations.shift()]: the head of the queue, the queue keeping
    its tail, or [undefined] with the queue left empty.  Here [next]
    receives the queue as it is before that [shift]. *)
Fixpoint next (env : Env) (direction : Direction) (err : option Error)
    (queue : list Migration.t) (w : World) : World :=
  match err with
  | Some err => record (Emit_error err) w
  | None =>
      match queue with
      | [] => save env (record Emit_complete w)
      | migration :: queue =>
          let w := record (Emit_migration migration direction) w in
          let w := record (Invoke migration direction (pos w)) w in
          match Migration.op direction migration with
          | Done => next env direction None queue w
          | Failed err => next env direction (Some err) queue w
          | Pending => w
          end
      end
  end.

(** The [switch] of [_migrate] with the first call of [next]: the slice
    for [migrationPos] is cut out, [pos] is moved by its length, and the
    drain starts. *)
Definition run_from (env : Env) (direction : Direction) (migrationPos : Z)
    (w : World) : World :=
  match direction with
  | Up =>
      let slice := Js.slice (migrations w) (pos w) (migrationPos + 1) in
      let w := set_pos (pos w + Z.of_nat (length slice)) w in
      next env direction None slice w
  | Down =>
      let slice := reverse (Js.slice (migrations w) migrationPos (pos w)) in
      let w := set_pos (pos w - Z.of_nat (length slice)) w in
      next env direction None slice w
  end.

(** [_migrate(direction, migrationName)].  After [process.exit(1)]
    nothing more runs. *)
Definition _migrate (env : Env) (direction : Direction)
    (migrationName : option string) (w : World) : World :=
  if negb (Js.truthy migrationName) then
    let migrationPos :=
      match direction with
      | Up => Z.of_nat (length (migrations w))
      | Down => 0
      end in
    run_from env direction migrationPos w
  else
    let migrationPos :=
      positionOfMigration (migrations w) (Js.to_string migrationName) in
    if migrationPos =? -1 then
      let w :=
        record (Console_error
                  (String.append "Could not find migration: "
                     (Js.to_string migrationName))) w in
      record (Process_exit 1) w
    else run_from env direction migrationPos w.

(** [migrate(direction, migrationName)]. *)
Definition migrate (env : Env) (direction : Direction)
    (migrationName : option string) (w : World) : World :=
  load env
    (fun result w =>
       match result with
       | inl err =>
           if negb (has_code "ENOENT" err)
           then record (Emit_error err) w
           else _migrate env direction migrationName w
       | inr obj =>
           _migrate env direction migrationName (set_pos (Loaded.pos obj) w)
       end)
    w.

(** [down(migrationName)] and [up(migrationName)]. *)
Definition down (env : Env) (migrationName : option string) (w : World)
    : World :=
  migrate env Down migrationName w.

Definition up (env : Env) (migrationName : option string) (w : World)
    : World :=
  migrate env Up migrationName w.

(** ** [load] and [migrate] with the decoder left open *)

(** [load(fn)] as above, with the call of [JSON.parse] as a parameter:
    [decode] is any function from the stored text to the exception it
    throws or the value it returns, of any type [V]. *)
Definition load_with {V : Type} (decode : string -> Error + V) (env : Env)
    (fn : Error + (V * Z) -> World -> World) (w : World) : World :=
  let w := record Emit_load w in
  connectDb env
    (fun w =>
       let w := record Db_select w in
       match select_error env with
       | Some err => fn (inl err) w
       | None =>
           let result := stored_row w in
           match decode (TableRow.migrations result) with
           | inl err => fn (inl err) w
           | inr decoded => fn (inr (decoded, TableRow.pos result)) w
           end
       end)
    w.

(** [migrate(direction, migrationName)] over [load_with]: the callback
    reads the position of the loaded object and nothing else of it. *)
Definition migrate_with {V : Type} (decode : string -> Error + V) (env : Env)
    (direction : Direction) (migrationName : option string) (w : World)
    : World :=
  load_with decode env
    (fun result w =>
       match result with
       | inl err =>
           if negb (has_code "ENOENT" err)
           then record (Emit_error err) w
           else _migrate env direction migrationName w
       | inr obj => _migrate env direction migrationName (set_pos (snd obj) w)
       end)
    w.

(** ** Observations on a run *)

(** The migrations whose operation was invoked, oldest first. *)
Fixpoint invoked (l : list Event) : list Migration.t :=
  match l with
  | [] => []
  | Invoke m _ _ :: l => m :: invoked l
  | _ :: l => invoked l
  end.

(** The errors emitted through the [error] event, oldest first. *)
Fixpoint errors (l : list Event) : list Error :=
  match l with
  | [] => []
  | Emit_error err :: l => err :: errors l
  | _ :: l => errors l
  end.

(** The rows written to the table, oldest first. *)
Fixpoint upserts (l : list Event) : list TableRow.t :=
  match l with
  | [] => []
  | Db_upsert params :: l => params :: upserts l
  | _ :: l => upserts l
  end.

(** The events a run adds to the log: what [w'] has logged beyond [w]. *)
Definition events (w w' : World) : list Event :=
  drop (length (log w)) (log w').

(** The migrations a run from [w] to [w'] executed, in execution order. *)
Definition executed (w w' : World) : list Migration.t :=
  invoked (events w w').

(** The position with which [migrate] enters [_migrate], when it does:
    the stored position after a successful [load], the position in memory
    when [load] reports an error whose code is ENOENT; no position when
    the run ends with the connection or with another load error. *)
Definition starting_position (env : Env) (w : World) : option Z :=
  match connect_error env with
  | Some _ => None
  | None =>
      match select_error env with
      | Some err => if has_code "ENOENT" err then Some (pos w) else None
      | None =>
          match JSON.parse (TableRow.migrations (stored_row w)) with
          | inl err => if has_code "ENOENT" err then Some (pos w) else None
          | inr _ => Some (TableRow.pos (stored_row w))
          end
      end
  end.

(** The migrations of [ms] at the indices [idx], each index looked up on
    its own; an index outside the list gives [None]. *)
Definition at_indices (ms : list Migration.t) (idx : list Z)
    : list (option Migration.t) :=
  (fun j => if j <? 0 then None else ms !! Z.to_nat j) <$> idx.

(** The two events of one step of the drain, taken while [pos] is [p]. *)
Definition step_events (direction : Direction) (p : Z) (m : Migration.t)
    : list Event :=
  [Emit_migration m direction; Invoke m direction p].

(** Every operation of the queue calls back without an error. *)
Definition all_done (direction : Direction) (queue : list Migration.t) : Prop :=
  Forall (fun m => Migration.op direction m = Done) queue.

(** The operations, in [direction], of the migrations of [ms] at the
    indices [idx] all call back without an error. *)
Definition succeed (direction : Direction) (ms : list Migration.t)
    (idx : list Z) : Prop :=
  forall m, Some m ∈ at_indices ms idx -> Migration.op direction m = Done.

(** One step of the drain up to the invocation: the [migration] event,
    then the call of the operation, which finds the set as it is. *)
Definition announce (direction : Direction) (m : Migration.t) (w : World)
    : World :=
  record (Invoke m direction (pos w)) (record (Emit_migration m direction) w).

(** The world after the migrations of [queue] have been announced and
    invoked one after the other. *)
Definition played (direction : Direction) (queue : list Migration.t)
    (w : World) : World :=
  foldl (fun w m => announce direction m w) w queue.

(** The world in which the callback of [load] runs: [load] was emitted,
    the connection made and the SELECT sent. *)
Definition entered (w : World) : World :=
  record Db_select (record Db_connect (set_db (record Emit_load w))).

(** The row [saveToDatabase] writes for the set as it is in [w]. *)
Definition params_of (w : World) : TableRow.t :=
  {| TableRow.migrations := stringify_migrations (migrations w);
     TableRow.pos := pos w |}.

(** The events of [disconnectDb], which follow the INSERT of [save]. *)
Definition after_upsert (env : Env) : list Event :=
  match upsert_error env with
  | Some err => [Emit_error err]
  | None => [Emit_save; Db_destroy]
  end.

(** The table after the INSERT of the row [params] was sent. *)
Definition after_upsert_table (env : Env) (params : TableRow.t)
    (before : option TableRow.t) : option TableRow.t :=
  match upsert_error env with
  | Some _ => before
  | None => Some params
  end.

(** The slice the [switch] of [_migrate] cuts out of the registry [ms]
    for the position [p] and the index [migrationPos]. *)
Definition run_slice (direction : Direction) (ms : list Migration.t)
    (p migrationPos : Z) : list Migration.t :=
  match direction with
  | Up => Js.slice ms p (migrationPos + 1)
  | Down => reverse (Js.slice ms migrationPos p)
  end.

(** The position the [switch] of [_migrate] leaves for a slice of [n]
    migrations. *)
Definition moved (direction : Direction) (p : Z) (n : nat) : Z :=
  match direction with
  | Up => p + Z.of_nat n
  | Down => p - Z.of_nat n
  end.

(** The index [_migrate] runs to: the end of its direction without a
    (truthy) name, the index of the name in the registry with one. *)
Definition target_index (direction : Direction) (ms : list Migration.t)
    (migrationName : option string) : Z :=
  if Js.truthy migrationName
  then positionOfMigration ms (Js.to_string migrationName)
  else match direction with
       | Up => Z.of_nat (length ms)
       | Down => 0
       end.

(** The migrations of a queue whose operation the drain invokes: those
    up to and including the first whose operation does not call back
    without an error. *)
Fixpoint attempted (direction : Direction) (queue : list Migration.t)
    : list Migration.t :=
  match queue with
  | [] => []
  | m :: queue =>
      m :: match Migration.op direction m with
           | Done => attempted direction queue
           | _ => []
           end
  end.

(** The text of one migration in the [migrations] column, as
    [stringify_migrations] writes it. *)
Definition stored_item (m : Migration.t) : string :=
  String.append "{"
    (String.append (JSON.quote "title")
       (String.append ":"
          (String.append (JSON.quote (Migration.title m)) "}"))).

(** The migrations announced with the [migration] event, oldest first. *)
Fixpoint announced (l : list Event) : list Migration.t :=
  match l with
  | [] => []
  | Emit_migration m _ :: l => m :: announced l
  | _ :: l => announced l
  end.

(** [Number.MAX_SAFE_INTEGER]: up to this magnitude the numbers of
    JavaScript hold every integer, and add and subtract them exactly. *)
Definition MAX_SAFE_INTEGER : Z := 2 ^ 53 - 1.

(** What a stored migration decodes to: an object with its title. *)
Definition title_object (m : Migration.t) : JSON.value :=
  JSON.Object [("title"%string, JSON.Str (Migration.title m))].

(** No character of [s] is a control character (a code below 32). *)
Fixpoint printable (s : string) : bool :=
  match s with
  | EmptyString => true
  | String c rest => negb (nat_of_ascii c <? 32)%nat && printable rest
  end.

(** No title of the registry holds a control character. *)
Definition printable_titles (ms : list Migration.t) : Prop :=
  Forall (fun m => printable (Migration.title m) = true) ms.

(** ** Sample data *)

Module Sample.

Definition boom : Error := {| code := None; message := "boom" |}.

Definition m001 : Migration.t := Migration.mk "001" Done Done.
Definition m002 : Migration.t := Migration.mk "002" Done Done.
Definition m003 : Migration.t := Migration.mk "003" Done Done.

(** A migration whose operations both call back with an error. *)
Definition broken : Migration.t :=
  Migration.mk "002-broken" (Failed boom) (Failed boom).

(** A migration registered under the empty title. *)
Definition untitled : Migration.t := Migration.mk EmptyString Done Done.

(** A database that answers every request without an error. *)
Definition healthy : Env :=
  {| connect_error := None; select_error := None; upsert_error := None |}.

(** A database that cannot be reached. *)
Definition unreachable : Env :=
  {| connect_error := Some {| code := Some "ECONNREFUSED"%string;
                              message := "connect ECONNREFUSED" |};
     select_error := None; upsert_error := None |}.

(** A set with the given migrations, a table with the given row, before
    anything has happened. *)
Definition world (ms : list Migration.t) (row : option TableRow.t) : World :=
  {| self := {| MigrationSet.migrations := ms;
                MigrationSet.path := ".migrate";
                MigrationSet.pos := 0 |};
     db := false; table := row; log := [] |}.

Definition registry : list Migration.t := [m001; m002; m003].

(** The row that [save] writes for the migrations [ms] at position [p]. *)
Definition row_of (ms : list Migration.t) (p : Z) : TableRow.t :=
  {| TableRow.migrations := stringify_migrations ms; TableRow.pos := p |}.

(** The three migrations on a fresh project: the table is empty. *)
Definition fresh : World := world registry None.

(** The three migrations with position [p] on record. *)
Definition applied (p : Z) : World :=
  world registry (Some (row_of registry p)).

(** The three migrations with a position on record that lies before
    the start, or beyond the end, of the registry. *)
Definition before_start : World := applied (-1).
Definition beyond_end : World := applied 5.

(** A fresh project whose first migration carries the empty title. *)
Definition untitled_first : World := world [untitled; m002] None.

(** A project with all of its three migrations applied, the second of
    which carries the empty title. *)
Definition untitled_second : World :=
  world [m001; untitled; m003] (Some (row_of [m001; untitled; m003] 3)).

(** A fresh project with one migration. *)
Definition single : World := world [m001] None.

(** A fresh project whose second migration fails. *)
Definition with_broken : World := world [m001; broken; m003] None.

(** The same three migrations with all of them on record as applied. *)
Definition broken_applied : World :=
  world [m001; broken; m003] (Some (row_of [m001; broken; m003] 3)).



(** A callback for [load] that keeps the loaded position, as the one of
    [migrate] does, and nothing else. *)
Definition keep_position (result : Error + Loaded.t) (w : World) : World :=
  match result with
  | inl _ => w
  | inr obj => set_pos (Loaded.pos obj) w
  end.

(** A database whose INSERT fails. *)
Definition read_only : Env :=
  {| connect_error := None; select_error := None;
     upsert_error := Some {| code := Some "ER_OPTION_PREVENTS_STATEMENT"%string;
                             message := "read only" |} |}.

(** A database whose SELECT fails: the table is missing. *)
Definition no_table : Env :=
  {| connect_error := None;
     select_error := Some {| code := Some "ER_NO_SUCH_TABLE"%string;
                             message := "no such table" |};
     upsert_error := None |}.

(** A database whose SELECT reports an error with the code ENOENT. *)
Definition enoent : Env :=
  {| connect_error := None;
     select_error := Some {| code := Some "ENOENT"%string;
                             message := "no such file" |};
     upsert_error := None |}.

(** A migration whose operations never call back. *)
Definition stuck : Migration.t := Migration.mk "002-stuck" Pending Pending.

(** A fresh project whose second migration never calls back. *)
Definition with_stuck : World := world [m001; stuck; m003] None.

(** The project of [with_broken] as a later process finds it when the
    second migration has been repaired: the same titles, every operation
    calling back without error. *)
Definition repaired : World :=
  world [m001; Migration.mk "002-broken" Done Done; m003] None.

(** Two migrations registered under the same title. *)
Definition twice : list Migration.t :=
  [m001; Migration.mk "002" Done Done; Migration.mk "002" (Failed boom) Done].

End Sample.

(** ** Array slices *)

Section Slice.
Context {A : Type}.
Implicit Types (arr : list A) (a b : Z).

(** With bounds that are not negative, [slice] drops and takes. *)
Lemma slice_take_drop arr a b :
  0 <= a -> 0 <= b ->
  Js.slice arr a b = take (Z.to_nat b - Z.to_nat a) (drop (Z.to_nat a) arr).
Proof.
  intros Ha Hb. unfold Js.slice, Js.relative.
  destruct (Z.ltb_spec a 0) as [|_]; [lia|].
  destruct (Z.ltb_spec b 0) as [|_]; [lia|].
  destruct (Z.le_gt_cases (Z.of_nat (length arr)) a) as [Hge|Hlt].
  - rewrite (Z.min_r a) by lia.
    rewrite (drop_ge arr (Z.to_nat (Z.of_nat (length arr)))) by lia.
    rewrite (drop_ge arr (Z.to_nat a)) by lia.
    by rewrite !take_nil.
  - rewrite (Z.min_l a) by lia.
    destruct (Z.le_gt_cases b (Z.of_nat (length arr))) as [Hb'|Hb'].
    + rewrite (Z.min_l b) by lia. f_equal. lia.
    + rewrite (Z.min_r b) by lia.
      rewrite !take_ge; [done| |]; rewrite length_drop; lia.
Qed.

Lemma slice_length arr a b :
  0 <= a <= b -> b <= Z.of_nat (length arr) ->
  Z.of_nat (length (Js.slice arr a b)) = b - a.
Proof.
  intros Ha Hb. rewrite slice_take_drop by lia.
  rewrite length_take, length_drop. lia.
Qed.

Lemma slice_lookup arr a b (j : nat) :
  0 <= a <= b -> b <= Z.of_nat (length arr) ->
  Z.of_nat j < b - a ->
  Js.slice arr a b !! j = arr !! Z.to_nat (a + Z.of_nat j).
Proof.
  intros Ha Hb Hj. rewrite slice_take_drop by lia.
  rewrite lookup_take_lt by lia. rewrite lookup_drop. f_equal. lia.
Qed.

(** A slice end beyond the array is the array's end. *)
Lemma slice_past_end arr a b :
  0 <= a -> Z.of_nat (length arr) <= b ->
  Js.slice arr a b = Js.slice arr a (Z.of_nat (length arr)).
Proof.
  intros Ha Hb. rewrite !slice_take_drop by lia.
  rewrite !take_ge; [done| |]; rewrite length_drop; lia.
Qed.

(** A slice is no longer than the distance of its bounds, nor than what
    the array holds after its start. *)
Lemma slice_length_le arr a b :
  0 <= a -> 0 <= b ->
  Z.of_nat (length (Js.slice arr a b)) <= Z.max (b - a) 0
  /\ Z.of_nat (length (Js.slice arr a b))
     <= Z.max (Z.of_nat (length arr) - a) 0.
Proof.
  intros Ha Hb. rewrite slice_take_drop by lia.
  rewrite length_take, length_drop. lia.
Qed.

End Slice.

(** The migrations of a slice are those at its indices, in order. *)
Lemma slice_at_indices (ms : list Migration.t) (a b : Z) :
  0 <= a <= b -> b <= Z.of_nat (length ms) ->
  Some <$> Js.slice ms a b = at_indices ms (seqZ a (b - a)).
Proof.
  intros Ha Hb. apply list_eq. intros j. unfold at_indices.
  rewrite !list_lookup_fmap.
  destruct (Z.lt_ge_cases (Z.of_nat j) (b - a)) as [Hj|Hj].
  - rewrite slice_lookup by lia. rewrite lookup_seqZ_lt by lia. simpl.
    destruct (Z.ltb_spec (a + Z.of_nat j) 0) as [|_]; [lia|].
    destruct (ms !! Z.to_nat (a + Z.of_nat j)) eqn:E; [done|].
    apply lookup_ge_None in E. lia.
  - rewrite lookup_seqZ_ge by lia.
    rewrite (lookup_ge_None_2 (Js.slice ms a b)); [done|].
    pose proof (slice_length ms a b Ha Hb). lia.
Qed.

Lemma reverse_slice_at_indices (ms : list Migration.t) (a b : Z) :
  0 <= a <= b -> b <= Z.of_nat (length ms) ->
  Some <$> reverse (Js.slice ms a b) = at_indices ms (reverse (seqZ a (b - a))).
Proof.
  intros Ha Hb. rewrite fmap_reverse, slice_at_indices by done.
  unfold at_indices. by rewrite fmap_reverse.
Qed.

(** ** Logs and their observations *)

Lemma invoked_app l1 l2 : invoked (l1 ++ l2) = invoked l1 ++ invoked l2.
Proof.
  induction l1 as [|e l1 IH]; [done|].
  destruct e; simpl; by rewrite IH.
Qed.

Lemma errors_app l1 l2 : errors (l1 ++ l2) = errors l1 ++ errors l2.
Proof.
  induction l1 as [|e l1 IH]; [done|].
  destruct e; simpl; by rewrite IH.
Qed.

Lemma upserts_app l1 l2 : upserts (l1 ++ l2) = upserts l1 ++ upserts l2.
Proof.
  induction l1 as [|e l1 IH]; [done|].
  destruct e; simpl; by rewrite IH.
Qed.

Lemma events_app w w' l : log w' = log w ++ l -> events w w' = l.
Proof. intros E. unfold events. rewrite E. apply drop_app_length. Qed.

Lemma pos_set_pos p w : pos (set_pos p w) = p.
Proof. done. Qed.

Lemma set_pos_same w : set_pos (pos w) w = w.
Proof. by destruct w as [[? ? ?] ? ? ?]. Qed.

(** ** The drain *)

Section Drain.
Variables (env : Env) (direction : Direction).
Implicit Types (queue : list Migration.t) (w : World).

Lemma played_snoc queue m w :
  played direction (queue ++ [m]) w
  = announce direction m (played direction queue w).
Proof. unfold played. by rewrite foldl_snoc. Qed.

Lemma self_played queue w : self (played direction queue w) = self w.
Proof.
  revert w. induction queue as [|m queue IH]; intros w; [done|].
  simpl. by rewrite IH.
Qed.

Lemma pos_played queue w : pos (played direction queue w) = pos w.
Proof. unfold pos. by rewrite self_played. Qed.

Lemma table_played queue w : table (played direction queue w) = table w.
Proof.
  revert w. induction queue as [|m queue IH]; intros w; [done|].
  simpl. by rewrite IH.
Qed.

Lemma db_played queue w : db (played direction queue w) = db w.
Proof.
  revert w. induction queue as [|m queue IH]; intros w; [done|].
  simpl. by rewrite IH.
Qed.

Lemma log_played queue w :
  log (played direction queue w)
  = log w ++ (queue ≫= step_events direction (pos w)).
Proof.
  revert w. induction queue as [|m queue IH]; intros w; simpl.
  - by rewrite app_nil_r.
  - rewrite IH. simpl. by rewrite <- !app_assoc.
Qed.

Lemma invoked_steps p queue :
  invoked (queue ≫= step_events direction p) = queue.
Proof.
  induction queue as [|m queue IH]; [done|].
  by rewrite bind_cons, invoked_app, IH.
Qed.

Lemma errors_steps p queue : errors (queue ≫= step_events direction p) = [].
Proof.
  induction queue as [|m queue IH]; [done|].
  by rewrite bind_cons, errors_app, IH.
Qed.

Lemma upserts_steps p queue : upserts (queue ≫= step_events direction p) = [].
Proof.
  induction queue as [|m queue IH]; [done|].
  by rewrite bind_cons, upserts_app, IH.
Qed.

(** As long as the operations call back without an error, the drain
    moves on to the rest of the queue. *)
Lemma next_done_prefix pre rest w :
  all_done direction pre ->
  next env direction None (pre ++ rest) w
  = next env direction None rest (played direction pre w).
Proof.
  intros Hpre. revert w.
  induction Hpre as [|m pre Hm _ IH]; intros w; [done|].
  simpl. rewrite Hm. by rewrite IH.
Qed.

Lemma next_all_done queue w :
  all_done direction queue ->
  next env direction None queue w
  = save env (record Emit_complete (played direction queue w)).
Proof.
  intros Hq. rewrite <- (app_nil_r queue) at 1.
  by rewrite next_done_prefix.
Qed.

Lemma next_first_failure pre m post err w :
  all_done direction pre ->
  Migration.op direction m = Failed err ->
  next env direction None (pre ++ m :: post) w
  = record (Emit_error err) (played direction (pre ++ [m]) w).
Proof.
  intros Hpre Hm. rewrite next_done_prefix by done.
  rewrite played_snoc. simpl. rewrite Hm. by destruct post.
Qed.

Lemma next_first_pending pre m post w :
  all_done direction pre ->
  Migration.op direction m = Pending ->
  next env direction None (pre ++ m :: post) w
  = played direction (pre ++ [m]) w.
Proof.
  intros Hpre Hm. rewrite next_done_prefix by done.
  rewrite played_snoc. simpl. by rewrite Hm.
Qed.

End Drain.

(** ** Saving *)

Lemma self_save env w : self (save env w) = self w.
Proof.
  unfold save, connectDb, saveToDatabase, disconnectDb.
  repeat case_match; done.
Qed.

Lemma log_save env w :
  exists l, log (save env w) = log w ++ l /\ invoked l = [].
Proof.
  unfold save, connectDb, saveToDatabase, disconnectDb.
  repeat case_match; simpl; rewrite <- ?app_assoc; eexists; split; done.
Qed.

(** Once [db] is assigned, [save] sends the INSERT at once. *)
Lemma save_connected env w :
  db w = true -> save env w = saveToDatabase env w.
Proof. intros E. unfold save. by rewrite E. Qed.

(** ** The drain, whatever the outcomes *)

Section Drain_any.
Variables (env : Env) (direction : Direction).
Implicit Types (queue : list Migration.t) (w : World).

(** The drain never touches the set: [pos] and the registered
    migrations are as [next] found them. *)
Lemma self_next err queue w : self (next env direction err queue w) = self w.
Proof.
  revert err w. induction queue as [|m queue IH]; intros [e|] w; simpl;
    try done.
  - by rewrite self_save.
  - destruct (Migration.op direction m); by rewrite ?IH.
Qed.

Lemma pos_next err queue w : pos (next env direction err queue w) = pos w.
Proof. unfold pos. by rewrite self_next. Qed.

Lemma migrations_next err queue w :
  migrations (next env direction err queue w) = migrations w.
Proof. unfold migrations. by rewrite self_next. Qed.

Lemma next_error err queue w :
  next env direction (Some err) queue w = record (Emit_error err) w.
Proof. by destruct queue. Qed.

Lemma next_cons m queue w :
  next env direction None (m :: queue) w
  = match Migration.op direction m with
    | Done => next env direction None queue (announce direction m w)
    | Failed err => record (Emit_error err) (announce direction m w)
    | Pending => announce direction m w
    end.
Proof.
  simpl. destruct (Migration.op direction m); try done. apply next_error.
Qed.

Lemma log_announce m w :
  log (announce direction m w) = log w ++ step_events direction (pos w) m.
Proof. unfold announce. simpl. by rewrite <- app_assoc. Qed.

(** The operations invoked are a prefix of the queue that ends no later
    than the first operation that does not call back without error. *)
Lemma next_invokes_prefix queue w :
  exists l j,
    log (next env direction None queue w) = log w ++ l
    /\ invoked l = take j queue
    /\ forall k m, queue !! k = Some m ->
         Migration.op direction m <> Done -> (j <= S k)%nat.
Proof.
  revert w. induction queue as [|m queue IH]; intros w.
  - destruct (log_save env (record Emit_complete w)) as (l & El & Il).
    exists (Emit_complete :: l), 0%nat. simpl in *.
    rewrite El, <- app_assoc. repeat split; try done.
  - rewrite next_cons. destruct (Migration.op direction m) as [|e|] eqn:Hm.
    + destruct (IH (announce direction m w)) as (l & j & El & Il & Hj).
      exists (step_events direction (pos w) m ++ l), (S j).
      rewrite El, log_announce, <- app_assoc.
      split; [done|]. split; [by rewrite invoked_app, Il|].
      intros [|k] m' Hk Hm'; simpl in Hk.
      * congruence.
      * apply Hj in Hk; [lia|done].
    + exists (step_events direction (pos w) m ++ [Emit_error e]), 1%nat.
      split; [|split; [done|intros; lia]].
      change (log (record (Emit_error e) (announce direction m w)))
        with (log (announce direction m w) ++ [Emit_error e]).
      by rewrite log_announce, <- app_assoc.
    + exists (step_events direction (pos w) m), 1%nat.
      split; [apply log_announce|]. split; [done|intros; lia].
Qed.

(** A drain in which every operation calls back without error ends
    with [complete] and the save of the position and the registry: the
    INSERT, the replaced row, [save], and the connection given up. *)
Lemma next_saves queue w :
  all_done direction queue ->
  db w = true ->
  upsert_error env = None ->
  next env direction None queue w
  = let row := {| TableRow.migrations := stringify_migrations (migrations w);
                  TableRow.pos := pos w |} in
    record Db_destroy
      (record Emit_save
         (set_table row
            (record (Db_upsert row)
               (record Emit_complete (played direction queue w))))).
Proof.
  intros Hq Hdb Hup. rewrite next_all_done by done.
  rewrite save_connected by (simpl; by rewrite db_played).
  unfold saveToDatabase, disconnectDb. rewrite Hup.
  change (migrations (record Emit_complete (played direction queue w)))
    with (MigrationSet.migrations (self (played direction queue w))).
  change (pos (record Emit_complete (played direction queue w)))
    with (MigrationSet.pos (self (played direction queue w))).
  by rewrite self_played.
Qed.

End Drain_any.

(** C5.  Halt on first failure.  When the operation of the migration at
    index [k] of the slice calls back with an error, the operations
    invoked in the drain are a prefix of the slice that does not reach
    beyond index [k]; and when the drain reaches index [k] (every
    operation before it called back without error), the drain is exactly
    the steps of the first [k] migrations, the step of the failing one,
    and the [error] event with its error: nothing follows it, the failing
    operation is not invoked again, and the error is emitted once. *)
Theorem drain_halts_at_first_failure
    (env : Env) (direction : Direction) (slice : list Migration.t)
    (k : nat) (m : Migration.t) (err : Error) (w : World) :
  slice !! k = Some m ->
  Migration.op direction m = Failed err ->
  let w' := next env direction None slice w in
  (exists j, (j <= S k)%nat /\ executed w w' = take j slice)
  /\ (all_done direction (take k slice) ->
      events w w'
      = (take k slice ≫= step_events direction (pos w))
        ++ step_events direction (pos w) m ++ [Emit_error err]
      /\ executed w w' = take (S k) slice
      /\ errors (events w w') = [err]).
Proof.
  intros Hk Hm. cbv zeta. split.
  - destruct (next_invokes_prefix env direction slice w)
      as (l & j & El & Il & Hj).
    exists j. split.
    + apply (Hj k m Hk). by rewrite Hm.
    + unfold executed. by rewrite (events_app _ _ _ El).
  - intros Hpre.
    assert (E : events w (next env direction None slice w)
                = (take k slice ≫= step_events direction (pos w))
                  ++ step_events direction (pos w) m ++ [Emit_error err]).
    { apply events_app.
      rewrite <- (take_drop_middle slice k m Hk) at 1.
      rewrite (next_first_failure env direction _ m _ err) by done.
      simpl. rewrite log_played, bind_app. simpl.
      by rewrite <- !app_assoc. }
    split; [done|]. unfold executed. rewrite E. split.
    + rewrite invoked_app, invoked_steps. simpl.
      by rewrite (take_S_r _ _ _ Hk).
    + rewrite errors_app, errors_steps. done.
Qed.

Lemma drain_halts_at_first_failure_witness :
  events Sample.with_broken
    (next Sample.healthy Up None [Sample.m001; Sample.broken; Sample.m003]
       Sample.with_broken)
  = [Emit_migration Sample.m001 Up; Invoke Sample.m001 Up 0;
     Emit_migration Sample.broken Up; Invoke Sample.broken Up 0;
     Emit_error Sample.boom]
  /\ executed Sample.with_broken
       (next Sample.healthy Up None [Sample.m001; Sample.broken; Sample.m003]
          Sample.with_broken)
     = [Sample.m001; Sample.broken]
  /\ errors (events Sample.with_broken
               (next Sample.healthy Up None
                  [Sample.m001; Sample.broken; Sample.m003]
                  Sample.with_broken))
     = [Sample.boom].
Proof.
  apply (drain_halts_at_first_failure Sample.healthy Up
           [Sample.m001; Sample.broken; Sample.m003] 1 Sample.broken
           Sample.boom Sample.with_broken).
  - reflexivity.
  - reflexivity.
  - repeat constructor.
Defined.

(** ** Registry lookup *)

Lemma positionOfMigration_from_range i ms filename :
  0 <= i ->
  positionOfMigration_from i ms filename = -1
  \/ i <= positionOfMigration_from i ms filename < i + Z.of_nat (length ms).
Proof.
  revert i. induction ms as [|m ms IH]; intros i Hi; simpl; [by left|].
  destruct (String.eqb (Migration.title m) filename); [right; lia|].
  destruct (IH (i + 1)) as [->|H]; [lia|by left|right; lia].
Qed.

(** A found index is inside the registry. *)
Lemma positionOfMigration_range ms filename :
  positionOfMigration ms filename <> -1 ->
  0 <= positionOfMigration ms filename < Z.of_nat (length ms).
Proof.
  intros H. unfold positionOfMigration in *.
  destruct (positionOfMigration_from_range 0 ms filename) as [E|E]; lia.
Qed.

(** A title that no registered migration carries is not found. *)
Lemma positionOfMigration_from_absent i ms filename :
  filename ∉ Migration.title <$> ms ->
  positionOfMigration_from i ms filename = -1.
Proof.
  revert i. induction ms as [|m ms IH]; intros i Hnot; simpl; [done|].
  rewrite fmap_cons, not_elem_of_cons in Hnot. destruct Hnot as [Hm Hms].
  destruct (String.eqb_spec (Migration.title m) filename) as [E|_].
  - by rewrite E in Hm.
  - by apply IH.
Qed.

Lemma positionOfMigration_absent ms filename :
  filename ∉ Migration.title <$> ms -> positionOfMigration ms filename = -1.
Proof. apply positionOfMigration_from_absent. Qed.

(** The index found is that of the first migration with the title. *)
Lemma positionOfMigration_from_found i ms filename r :
  0 <= i ->
  positionOfMigration_from i ms filename = r -> r <> -1 ->
  exists m, ms !! Z.to_nat (r - i) = Some m
            /\ Migration.title m = filename
            /\ filename ∉ Migration.title <$> take (Z.to_nat (r - i)) ms.
Proof.
  revert i. induction ms as [|m ms IH]; intros i Hi Hr Hfound; simpl in Hr;
    [congruence|].
  destruct (String.eqb_spec (Migration.title m) filename) as [E|E].
  - subst r. replace (i - i) with 0 by lia. exists m. simpl.
    repeat split; try done. apply not_elem_of_nil.
  - destruct (positionOfMigration_from_range (i + 1) ms filename) as [E'|E'];
      [lia|congruence|].
    destruct (IH (i + 1)) as (m' & Hm' & Ht & Hbefore); [lia|done|done|].
    replace (Z.to_nat (r - i)) with (S (Z.to_nat (r - (i + 1)))) by lia.
    exists m'. simpl. repeat split; try done.
    rewrite not_elem_of_cons. by split.
Qed.

(** A title is absent when it differs from every registered title. *)
Lemma absent_by_comparison ms filename :
  forallb (fun m => negb (String.eqb (Migration.title m) filename)) ms = true ->
  filename ∉ Migration.title <$> ms.
Proof.
  induction ms as [|m ms IH]; simpl; intros H; [apply not_elem_of_nil|].
  apply andb_prop in H as [Hm Hms]. apply not_elem_of_cons.
  split; [|by apply IH].
  intros E. apply negb_true_iff in Hm. apply String.eqb_neq in Hm. congruence.
Qed.

(** ** Entering [_migrate] *)

Lemma log_entered w :
  log (entered w) = log w ++ [Emit_load; Db_connect; Db_select].
Proof. unfold entered. simpl. by rewrite <- !app_assoc. Qed.

(** A run that has a starting position goes on into [_migrate] with it. *)
Lemma migrate_enters env direction migrationName w p :
  starting_position env w = Some p ->
  migrate env direction migrationName w
  = _migrate env direction migrationName (set_pos p (entered w)).
Proof.
  unfold starting_position, migrate, load, connectDb, stored_row.
  intros Hp. fold (entered w).
  assert (Hsame : forall err,
            has_code "ENOENT" err = true -> Some (pos w) = Some p ->
            _migrate env direction migrationName (entered w)
            = _migrate env direction migrationName (set_pos p (entered w))).
  { intros err _ [= <-]. f_equal. symmetry. exact (set_pos_same (entered w)). }
  destruct (connect_error env); [done|].
  destruct (select_error env) as [err|].
  - destruct (has_code "ENOENT" err) eqn:E; [|done]. simpl. by eapply Hsame.
  - change (table (entered w)) with (table w).
    destruct (JSON.parse _) as [err|decoded].
    + destruct (has_code "ENOENT" err) eqn:E; [|done]. simpl. by eapply Hsame.
    + simpl. by injection Hp as <-.
Qed.

(** A run without a starting position ends with the [error] event of the
    connection or of the load, and leaves the set and the table alone. *)
Lemma migrate_not_entered env direction migrationName w :
  starting_position env w = None ->
  exists err,
    (events w (migrate env direction migrationName w)
       = [Emit_load; Db_connect; Emit_error err]
     \/ events w (migrate env direction migrationName w)
       = [Emit_load; Db_connect; Db_select; Emit_error err])
    /\ self (migrate env direction migrationName w) = self w
    /\ table (migrate env direction migrationName w) = table w.
Proof.
  unfold starting_position, migrate, load, connectDb, stored_row.
  intros Hp.
  destruct (connect_error env) as [err|].
  { exists err. split; [left|done]. apply events_app. simpl.
    by rewrite <- !app_assoc. }
  change (table (record Db_select _)) with (table w).
  destruct (select_error env) as [err|];
    [|destruct (JSON.parse _) as [err|decoded]; [|done]];
    (destruct (has_code "ENOENT" err); [done|]);
    (exists err; split; [right|done]; apply events_app; simpl;
     by rewrite <- !app_assoc).
Qed.

(** ** Slices of a run *)

Lemma succeed_all_done direction ms idx queue :
  Some <$> queue = at_indices ms idx ->
  succeed direction ms idx -> all_done direction queue.
Proof.
  intros E Hs. apply Forall_forall. intros m Hm. apply Hs.
  rewrite <- E. by apply list_elem_of_fmap_2.
Qed.

(** A drain in which every operation calls back without error executes
    its whole queue. *)
Lemma executed_next_all_done env direction queue w0 w l0 :
  log w = log w0 ++ l0 -> invoked l0 = [] ->
  all_done direction queue ->
  executed w0 (next env direction None queue w) = queue.
Proof.
  intros E0 I0 Hq. rewrite next_all_done by done.
  destruct (log_save env (record Emit_complete (played direction queue w)))
    as (l & El & Il).
  unfold executed. erewrite events_app.
  2:{ rewrite El. simpl. rewrite log_played, E0. by rewrite <- !app_assoc. }
  rewrite !invoked_app, I0, invoked_steps, Il. simpl. by rewrite app_nil_r.
Qed.

Section Run_from.
Variables (env : Env) (w0 w : World) (l0 : list Event).
Hypothesis log_w : log w = log w0 ++ l0.
Hypothesis invoked_l0 : invoked l0 = [].

(** [up]: from [pos] up to the end bound [e] of the slice. *)
Lemma run_from_up migrationPos e :
  e = Z.min (migrationPos + 1) (Z.of_nat (length (migrations w))) ->
  0 <= pos w <= e ->
  pos (run_from env Up migrationPos w) = e
  /\ (succeed Up (migrations w) (seqZ (pos w) (e - pos w)) ->
      Z.of_nat (length (executed w0 (run_from env Up migrationPos w)))
      = e - pos w
      /\ Some <$> executed w0 (run_from env Up migrationPos w)
         = at_indices (migrations w) (seqZ (pos w) (e - pos w))).
Proof.
  intros He Hp. unfold run_from.
  assert (Hs : Js.slice (migrations w) (pos w) (migrationPos + 1)
               = Js.slice (migrations w) (pos w) e).
  { destruct (Z.le_gt_cases (migrationPos + 1)
                (Z.of_nat (length (migrations w)))).
    - by rewrite He, Z.min_l.
    - rewrite He, Z.min_r by lia. apply slice_past_end; lia. }
  rewrite Hs.
  pose proof (slice_length (migrations w) (pos w) e) as Hlen.
  pose proof (slice_at_indices (migrations w) (pos w) e) as Hidx.
  split.
  - rewrite pos_next, pos_set_pos. lia.
  - intros Hok. rewrite executed_next_all_done with (l0 := l0); try done.
    + split; [lia|]. apply Hidx; lia.
    + eapply succeed_all_done; [|done]. apply Hidx; lia.
Qed.

(** [down]: from [pos] down to [migrationPos]. *)
Lemma run_from_down migrationPos :
  0 <= migrationPos <= pos w ->
  pos w <= Z.of_nat (length (migrations w)) ->
  pos (run_from env Down migrationPos w) = migrationPos
  /\ (succeed Down (migrations w)
        (reverse (seqZ migrationPos (pos w - migrationPos))) ->
      Z.of_nat (length (executed w0 (run_from env Down migrationPos w)))
      = pos w - migrationPos
      /\ Some <$> executed w0 (run_from env Down migrationPos w)
         = at_indices (migrations w)
             (reverse (seqZ migrationPos (pos w - migrationPos)))).
Proof.
  intros Hm Hp. unfold run_from.
  pose proof (slice_length (migrations w) migrationPos (pos w)) as Hlen.
  pose proof (reverse_slice_at_indices (migrations w) migrationPos (pos w))
    as Hidx.
  split.
  - rewrite pos_next, pos_set_pos, length_reverse. lia.
  - intros Hok. rewrite executed_next_all_done with (l0 := l0); try done.
    + rewrite length_reverse. split; [lia|]. apply Hidx; lia.
    + eapply succeed_all_done; [|done]. apply Hidx; lia.
Qed.

End Run_from.

(** ** Runs without a target *)

Lemma log_started p w :
  log (set_pos p (entered w)) = log w ++ [Emit_load; Db_connect; Db_select].
Proof. apply log_entered. Qed.

Lemma succeed_Forall direction ms idx :
  Forall (fun o => match o with
                   | Some m => Migration.op direction m = Done
                   | None => True
                   end) (at_indices ms idx) ->
  succeed direction ms idx.
Proof. intros H m Hm. by apply (proj1 (Forall_forall _ _) H (Some m)). Qed.

(** Discharges [succeed] on a concrete registry. *)
Ltac succeed_by_evaluation :=
  apply succeed_Forall; vm_compute; repeat constructor.

(** C1, as the code has it.  Forward completeness.  A run of [up()]
    without a target that starts at position [p], [0 <= p <= N], leaves
    the position of the set at [N]; and when the operations of the
    migrations at the indices [p] to [N-1] call back without error, the
    run executes exactly [N - p] migrations, those at the indices [p],
    ..., [N-1] in this order. *)
Theorem up_without_target (env : Env) (w : World) (p : Z) :
  starting_position env w = Some p ->
  0 <= p <= Z.of_nat (length (migrations w)) ->
  pos (up env None w) = Z.of_nat (length (migrations w))
  /\ (succeed Up (migrations w)
        (seqZ p (Z.of_nat (length (migrations w)) - p)) ->
      Z.of_nat (length (executed w (up env None w)))
      = Z.of_nat (length (migrations w)) - p
      /\ Some <$> executed w (up env None w)
         = at_indices (migrations w)
             (seqZ p (Z.of_nat (length (migrations w)) - p))).
Proof.
  intros Hstart Hp. unfold up. rewrite (migrate_enters _ _ _ _ _ Hstart).
  unfold _migrate. simpl negb. cbv iota.
  apply (run_from_up env w (set_pos p (entered w)) _ (log_started p w) eq_refl).
  - change (migrations (set_pos p (entered w))) with (migrations w). lia.
  - rewrite pos_set_pos. done.
Qed.

Lemma up_without_target_witness :
  starting_position Sample.healthy (Sample.applied 1) = Some 1
  /\ pos (up Sample.healthy None (Sample.applied 1)) = 3
  /\ Some <$> executed (Sample.applied 1)
                (up Sample.healthy None (Sample.applied 1))
     = [Some Sample.m002; Some Sample.m003].
Proof.
  split; [reflexivity|].
  destruct (up_without_target Sample.healthy (Sample.applied 1) 1)
    as [Hpos Hrun]; [reflexivity|simpl; lia|].
  split; [exact Hpos|].
  apply Hrun. succeed_by_evaluation.
Defined.

(** C1 as stated fails when an operation fails.  The set holds 001, a
    migration 002 whose [up] calls back with an error, and 003, on a fresh
    project: the run starts at position 0 and the specification gives the
    three migrations at the indices 0, 1, 2.  The drain halts at the
    error: 001 and 002 are executed, 003 is not, and the position is 3
    all the same. *)
Lemma up_without_target_counterexample :
  starting_position Sample.healthy Sample.with_broken = Some 0
  /\ Z.of_nat (length (migrations Sample.with_broken)) = 3
  /\ executed Sample.with_broken (up Sample.healthy None Sample.with_broken)
     = [Sample.m001; Sample.broken]
  /\ Z.of_nat (length (executed Sample.with_broken
                         (up Sample.healthy None Sample.with_broken)))
     <> 3 - 0
  /\ Some <$> executed Sample.with_broken
                (up Sample.healthy None Sample.with_broken)
     <> at_indices (migrations Sample.with_broken) (seqZ 0 (3 - 0))
  /\ pos (up Sample.healthy None Sample.with_broken) = 3.
Proof.
  repeat split; try reflexivity; vm_compute; discriminate.
Qed.

(** C2, as the code has it.  Backward completeness.  A run of [down()]
    without a target that starts at position [p], [0 <= p <= N], leaves
    the position of the set at [0]; and when the operations of the
    migrations at the indices [p-1] down to [0] call back without error,
    the run executes exactly [p] migrations, those at the indices [p-1],
    ..., [0] in this order. *)
Theorem down_without_target (env : Env) (w : World) (p : Z) :
  starting_position env w = Some p ->
  0 <= p <= Z.of_nat (length (migrations w)) ->
  pos (down env None w) = 0
  /\ (succeed Down (migrations w) (reverse (seqZ 0 p)) ->
      Z.of_nat (length (executed w (down env None w))) = p
      /\ Some <$> executed w (down env None w)
         = at_indices (migrations w) (reverse (seqZ 0 p))).
Proof.
  intros Hstart Hp. unfold down. rewrite (migrate_enters _ _ _ _ _ Hstart).
  unfold _migrate. simpl negb. cbv iota.
  pose proof (run_from_down env w (set_pos p (entered w)) _
                (log_started p w) eq_refl 0) as H.
  rewrite pos_set_pos, Z.sub_0_r in H. apply H; [lia|].
  change (migrations (set_pos p (entered w))) with (migrations w). lia.
Qed.

Lemma down_without_target_witness :
  starting_position Sample.healthy (Sample.applied 2) = Some 2
  /\ pos (down Sample.healthy None (Sample.applied 2)) = 0
  /\ Some <$> executed (Sample.applied 2)
                (down Sample.healthy None (Sample.applied 2))
     = [Some Sample.m002; Some Sample.m001].
Proof.
  split; [reflexivity|].
  destruct (down_without_target Sample.healthy (Sample.applied 2) 2)
    as [Hpos Hrun]; [reflexivity|simpl; lia|].
  split; [exact Hpos|].
  apply Hrun. succeed_by_evaluation.
Defined.

(** C2 as stated fails when an operation fails.  The set holds 001, a
    migration 002 whose [down] calls back with an error, and 003, with
    position 3 on record: the specification gives the three migrations at
    the indices 2, 1, 0.  The drain halts at the error: 003 and 002 are
    executed, 001 is not, and the position is 0 all the same. *)
Lemma down_without_target_counterexample :
  starting_position Sample.healthy Sample.broken_applied = Some 3
  /\ Z.of_nat (length (migrations Sample.broken_applied)) = 3
  /\ executed Sample.broken_applied
       (down Sample.healthy None Sample.broken_applied)
     = [Sample.m003; Sample.broken]
  /\ Z.of_nat (length (executed Sample.broken_applied
                         (down Sample.healthy None Sample.broken_applied)))
     <> 3
  /\ Some <$> executed Sample.broken_applied
                (down Sample.healthy None Sample.broken_applied)
     <> at_indices (migrations Sample.broken_applied) (reverse (seqZ 0 3))
  /\ pos (down Sample.healthy None Sample.broken_applied) = 0.
Proof.
  repeat split; try reflexivity; vm_compute; discriminate.
Qed.

(** ** Runs to a target *)

Lemma truthy_nonempty (t : string) :
  t <> EmptyString -> Js.truthy (Some t) = true.
Proof. by destruct t. Qed.

(** With a title that is not empty, [_migrate] looks the title up and,
    when it is found, runs from the index found. *)
Lemma _migrate_found env direction t w :
  t <> EmptyString ->
  positionOfMigration (migrations w) t <> -1 ->
  _migrate env direction (Some t) w
  = run_from env direction (positionOfMigration (migrations w) t) w.
Proof.
  intros Ht Hfound. unfold _migrate. rewrite (truthy_nonempty t Ht). simpl.
  by destruct (Z.eqb_spec (positionOfMigration (migrations w) t) (-1)).
Qed.

(** C3, as the code has it.  Targeted up.  A run of [up(target)] with a
    title that is not the empty string and that the registry lookup
    resolves to the index [i], started at a position [p] with
    [0 <= p <= i], leaves the position of the set at [i + 1]; and when
    the operations of the migrations at the indices [p] to [i] call back
    without error, the run executes exactly those migrations, in
    registration order. *)
Theorem up_to_target (env : Env) (w : World) (p : Z) (t : string) (i : Z) :
  starting_position env w = Some p ->
  0 <= p ->
  t <> EmptyString ->
  positionOfMigration (migrations w) t = i ->
  p <= i ->
  pos (up env (Some t) w) = i + 1
  /\ (succeed Up (migrations w) (seqZ p (i + 1 - p)) ->
      Z.of_nat (length (executed w (up env (Some t) w))) = i + 1 - p
      /\ Some <$> executed w (up env (Some t) w)
         = at_indices (migrations w) (seqZ p (i + 1 - p))).
Proof.
  intros Hstart Hp Ht Hi Hpi. unfold up.
  rewrite (migrate_enters _ _ _ _ _ Hstart).
  change (migrations w) with (migrations (set_pos p (entered w))) in Hi |- *.
  assert (Hfound : positionOfMigration (migrations (set_pos p (entered w))) t
                   <> -1) by lia.
  pose proof (positionOfMigration_range _ _ Hfound) as Hrange.
  rewrite _migrate_found by done. rewrite Hi in *.
  pose proof (run_from_up env w (set_pos p (entered w)) _ (log_started p w)
                eq_refl i (i + 1)) as H.
  rewrite pos_set_pos in H. apply H; lia.
Qed.

Lemma up_to_target_witness :
  starting_position Sample.healthy Sample.fresh = Some 0
  /\ positionOfMigration (migrations Sample.fresh) "002" = 1
  /\ pos (up Sample.healthy (Some "002"%string) Sample.fresh) = 2
  /\ Some <$> executed Sample.fresh
                (up Sample.healthy (Some "002"%string) Sample.fresh)
     = [Some Sample.m001; Some Sample.m002].
Proof.
  split; [reflexivity|]. split; [reflexivity|].
  destruct (up_to_target Sample.healthy Sample.fresh 0 "002" 1)
    as [Hpos Hrun]; [reflexivity|lia|discriminate|reflexivity|lia|].
  split; [exact Hpos|].
  apply Hrun. succeed_by_evaluation.
Defined.

(** C3 as stated fails for the empty title, for a position below 0, and
    when an operation fails.

    First input: the set holds a migration registered under the empty
    title at index 0 and the migration 002; the run starts at position 0
    and every operation calls back without error.  The lookup resolves the
    empty title to index 0, so the specification gives the migration at
    index 0 alone and position 1.  The code takes the empty title for no
    target: it executes both migrations and leaves the position at 2.

    Second input: the set holds 001, 002, 003 and the row on record has
    position -1.  The title 001 resolves to index 0, which is not below
    the starting position, so the specification gives position 1.  The
    slice from -1 counts from the end and is empty: nothing is executed
    and the position stays -1.

    Third input: the set holds 001, a migration 002 whose [up] calls back
    with an error, and 003, on a fresh project.  The title 003 resolves to
    index 2, so the specification gives the migrations at the indices 0,
    1, 2.  The drain halts at the error: 001 and 002 are executed, 003 is
    not. *)
Lemma up_to_target_counterexample :
  (starting_position Sample.healthy Sample.untitled_first = Some 0
   /\ positionOfMigration (migrations Sample.untitled_first) EmptyString = 0
   /\ all_done Up (migrations Sample.untitled_first)
   /\ executed Sample.untitled_first
        (up Sample.healthy (Some EmptyString) Sample.untitled_first)
      = [Sample.untitled; Sample.m002]
   /\ pos (up Sample.healthy (Some EmptyString) Sample.untitled_first) = 2
   /\ pos (up Sample.healthy (Some EmptyString) Sample.untitled_first)
      <> 0 + 1)
  /\ (starting_position Sample.healthy Sample.before_start = Some (-1)
      /\ positionOfMigration (migrations Sample.before_start) "001" = 0
      /\ all_done Up (migrations Sample.before_start)
      /\ executed Sample.before_start
           (up Sample.healthy (Some "001"%string) Sample.before_start)
         = []
      /\ pos (up Sample.healthy (Some "001"%string) Sample.before_start) = -1
      /\ pos (up Sample.healthy (Some "001"%string) Sample.before_start)
         <> 0 + 1)
  /\ (starting_position Sample.healthy Sample.with_broken = Some 0
      /\ positionOfMigration (migrations Sample.with_broken) "003" = 2
      /\ executed Sample.with_broken
           (up Sample.healthy (Some "003"%string) Sample.with_broken)
         = [Sample.m001; Sample.broken]
      /\ Some <$> executed Sample.with_broken
                    (up Sample.healthy (Some "003"%string) Sample.with_broken)
         <> at_indices (migrations Sample.with_broken) (seqZ 0 (2 + 1 - 0))).
Proof.
  split; [|split]; repeat split; try reflexivity; try (repeat constructor);
    vm_compute; discriminate.
Qed.

(** C4, as the code has it.  Targeted down.  A run of [down(target)] with
    a title that is not the empty string and that the registry lookup
    resolves to the index [i], started at a position [p] with
    [i <= p <= N], leaves the position of the set at [i]; and when the
    operations of the migrations at the indices [p-1] down to [i] call
    back without error, the run executes exactly those migrations, in
    reverse registration order. *)
Theorem down_to_target (env : Env) (w : World) (p : Z) (t : string) (i : Z) :
  starting_position env w = Some p ->
  p <= Z.of_nat (length (migrations w)) ->
  t <> EmptyString ->
  positionOfMigration (migrations w) t = i ->
  i <> -1 ->
  i <= p ->
  pos (down env (Some t) w) = i
  /\ (succeed Down (migrations w) (reverse (seqZ i (p - i))) ->
      Z.of_nat (length (executed w (down env (Some t) w))) = p - i
      /\ Some <$> executed w (down env (Some t) w)
         = at_indices (migrations w) (reverse (seqZ i (p - i)))).
Proof.
  intros Hstart Hp Ht Hi Hfound Hip. unfold down.
  rewrite (migrate_enters _ _ _ _ _ Hstart).
  change (migrations w) with (migrations (set_pos p (entered w)))
    in Hi, Hp |- *.
  rewrite <- Hi in Hfound.
  pose proof (positionOfMigration_range _ _ Hfound) as Hrange.
  rewrite _migrate_found by done. rewrite Hi in *.
  pose proof (run_from_down env w (set_pos p (entered w)) _ (log_started p w)
                eq_refl i) as H.
  rewrite pos_set_pos in H. apply H; lia.
Qed.

Lemma down_to_target_witness :
  starting_position Sample.healthy (Sample.applied 3) = Some 3
  /\ positionOfMigration (migrations (Sample.applied 3)) "002" = 1
  /\ pos (down Sample.healthy (Some "002"%string) (Sample.applied 3)) = 1
  /\ Some <$> executed (Sample.applied 3)
                (down Sample.healthy (Some "002"%string) (Sample.applied 3))
     = [Some Sample.m003; Some Sample.m002].
Proof.
  split; [reflexivity|]. split; [reflexivity|].
  destruct (down_to_target Sample.healthy (Sample.applied 3) 3 "002" 1)
    as [Hpos Hrun]; [reflexivity|simpl; lia|discriminate|reflexivity|lia|lia|].
  split; [exact Hpos|].
  apply Hrun. succeed_by_evaluation.
Defined.

(** C4 as stated fails for the empty title, for a position beyond the
    registry, and when an operation fails.

    First input: the set holds the migration 001, a migration registered
    under the empty title at index 1, and the migration 003; the run
    starts at position 3 and every operation calls back without error.
    The lookup resolves the empty title to index 1, so the specification
    gives the migrations at the indices 2 and 1 and position 1.  The code
    takes the empty title for no target: it executes the migrations at
    the indices 2, 1 and 0 and leaves the position at 0.

    Second input: the set holds 001, 002, 003 and the row on record has
    position 5.  The title 002 resolves to index 1, so the specification
    gives position 1.  The slice from 1 to 5 ends with the registry: the
    migrations at the indices 2 and 1 are executed and the position is
    left at 3.

    Third input: the set holds 001, a migration 002 whose [down] calls
    back with an error, and 003, with position 3 on record.  The title 001
    resolves to index 0, so the specification gives the migrations at the
    indices 2, 1, 0.  The drain halts at the error: 003 and 002 are
    executed, 001 is not. *)
Lemma down_to_target_counterexample :
  (starting_position Sample.healthy Sample.untitled_second = Some 3
   /\ positionOfMigration (migrations Sample.untitled_second) EmptyString = 1
   /\ all_done Down (migrations Sample.untitled_second)
   /\ executed Sample.untitled_second
        (down Sample.healthy (Some EmptyString) Sample.untitled_second)
      = [Sample.m003; Sample.untitled; Sample.m001]
   /\ pos (down Sample.healthy (Some EmptyString) Sample.untitled_second) = 0
   /\ pos (down Sample.healthy (Some EmptyString) Sample.untitled_second)
      <> 1)
  /\ (starting_position Sample.healthy Sample.beyond_end = Some 5
      /\ positionOfMigration (migrations Sample.beyond_end) "002" = 1
      /\ all_done Down (migrations Sample.beyond_end)
      /\ executed Sample.beyond_end
           (down Sample.healthy (Some "002"%string) Sample.beyond_end)
         = [Sample.m003; Sample.m002]
      /\ pos (down Sample.healthy (Some "002"%string) Sample.beyond_end) = 3
      /\ pos (down Sample.healthy (Some "002"%string) Sample.beyond_end)
         <> 1)
  /\ (starting_position Sample.healthy Sample.broken_applied = Some 3
      /\ positionOfMigration (migrations Sample.broken_applied) "001" = 0
      /\ executed Sample.broken_applied
           (down Sample.healthy (Some "001"%string) Sample.broken_applied)
         = [Sample.m003; Sample.broken]
      /\ Some <$> executed Sample.broken_applied
                    (down Sample.healthy (Some "001"%string)
                       Sample.broken_applied)
         <> at_indices (migrations Sample.broken_applied)
              (reverse (seqZ 0 (3 - 0)))).
Proof.
  split; [|split]; repeat split; try reflexivity; try (repeat constructor);
    vm_compute; discriminate.
Qed.

(** ** The shape of a run *)

(** Either every operation of a queue calls back without error, or there
    is a first one that does not. *)
Lemma queue_cases direction queue :
  all_done direction queue
  \/ exists pre m post,
       queue = pre ++ m :: post
       /\ all_done direction pre
       /\ Migration.op direction m <> Done.
Proof.
  induction queue as [|m queue IH]; [left; constructor|].
  destruct (Migration.op direction m) eqn:Hm.
  - destruct IH as [Hall|(pre & m' & post & -> & Hpre & Hm')].
    + left. by constructor.
    + right. exists (m :: pre), m', post. repeat split; try done.
      by constructor.
  - right. exists [], m, queue. repeat split; [constructor|congruence].
  - right. exists [], m, queue. repeat split; [constructor|congruence].
Qed.

Lemma invoked_elem m direction p l :
  Invoke m direction p ∈ l -> m ∈ invoked l.
Proof.
  induction l as [|e l IH]; intros H; [by apply elem_of_nil in H|].
  apply elem_of_cons in H as [<-|H]; [by left|].
  destruct e; simpl; try right; by apply IH.
Qed.

Lemma steps_elem direction p ran m d' p' :
  Invoke m d' p' ∈ ran ≫= step_events direction p -> p' = p.
Proof.
  intros H. apply list_elem_of_bind in H as (m' & H & _).
  unfold step_events in H. rewrite !elem_of_cons in H.
  destruct H as [H|[H|H]]; [discriminate|by injection H|].
  by apply elem_of_nil in H.
Qed.

(** What the drain logs: the steps of the migrations it ran, then its
    closing.  When one of the operations it ran called back with an error,
    that operation is the last one run, the closing is the [error] event
    alone, and the table is as the drain found it. *)
Lemma next_events env direction queue w :
  exists ran closing,
    log (next env direction None queue w)
    = log w ++ (ran ≫= step_events direction (pos w)) ++ closing
    /\ invoked closing = []
    /\ forall m err,
         m ∈ ran -> Migration.op direction m = Failed err ->
         last ran = Some m
         /\ closing = [Emit_error err]
         /\ table (next env direction None queue w) = table w.
Proof.
  destruct (queue_cases direction queue)
    as [Hall|(pre & m & post & -> & Hpre & Hm)].
  - rewrite next_all_done by done.
    destruct (log_save env (record Emit_complete (played direction queue w)))
      as (l & El & Il).
    exists queue, (Emit_complete :: l). split; [|split; [done|]].
    + rewrite El. simpl. rewrite log_played. by rewrite <- !app_assoc.
    + intros m err Hin Hfail.
      rewrite (proj1 (Forall_forall _ _) Hall m Hin) in Hfail. discriminate.
  - assert (Hran : forall m' err, m' ∈ pre ++ [m] ->
              Migration.op direction m' = Failed err ->
              m' = m /\ last (pre ++ [m]) = Some m').
    { intros m' err Hin Hfail. apply elem_of_app in Hin as [Hin|Hin].
      - rewrite (proj1 (Forall_forall _ _) Hpre m' Hin) in Hfail. discriminate.
      - apply list_elem_of_singleton in Hin as ->. by rewrite last_snoc. }
    destruct (Migration.op direction m) as [|e|] eqn:Hop; [done| |].
    + rewrite (next_first_failure env direction pre m post e) by done.
      exists (pre ++ [m]), [Emit_error e]. split; [|split; [done|]].
      * simpl. rewrite log_played. by rewrite <- !app_assoc.
      * intros m' err Hin Hfail.
        destruct (Hran m' err Hin Hfail) as [-> Hlast].
        split; [done|]. split; [congruence|].
        simpl. apply table_played.
    + rewrite (next_first_pending env direction pre m post) by done.
      exists (pre ++ [m]), []. split; [|split; [done|]].
      * rewrite log_played. by rewrite app_nil_r.
      * intros m' err Hin Hfail.
        destruct (Hran m' err Hin Hfail) as [-> _]. congruence.
Qed.

(** A run either ends before [_migrate], or ends in [_migrate] with the
    message and the exit for a target that is not found, or goes on into
    the drain of a slice with the position already moved. *)
Lemma migrate_cases env direction migrationName w :
  (starting_position env w = None)
  \/ (exists p,
        starting_position env w = Some p
        /\ Js.truthy migrationName = true
        /\ positionOfMigration (migrations w) (Js.to_string migrationName) = -1
        /\ migrate env direction migrationName w
           = record (Process_exit 1)
               (record (Console_error
                          (String.append "Could not find migration: "
                             (Js.to_string migrationName)))
                  (set_pos p (entered w))))
  \/ (exists p migrationPos slice,
        starting_position env w = Some p
        /\ 0 <= migrationPos
        /\ migrate env direction migrationName w
           = next env direction None slice
               (set_pos
                  match direction with
                  | Up => p + Z.of_nat (length slice)
                  | Down => p - Z.of_nat (length slice)
                  end (entered w))
        /\ slice
           = match direction with
             | Up => Js.slice (migrations w) p (migrationPos + 1)
             | Down => reverse (Js.slice (migrations w) migrationPos p)
             end).
Proof.
  destruct (starting_position env w) as [p|] eqn:Hstart; [right|by left].
  rewrite (migrate_enters _ _ _ _ _ Hstart). unfold _migrate.
  change (migrations (set_pos p (entered w))) with (migrations w).
  destruct (Js.truthy migrationName) eqn:Htruthy; simpl.
  - destruct (Z.eqb_spec (positionOfMigration (migrations w)
                            (Js.to_string migrationName)) (-1)) as [E|E].
    + left. by exists p.
    + right. pose proof (positionOfMigration_range _ _ E).
      exists p, (positionOfMigration (migrations w) (Js.to_string migrationName)).
      destruct direction; eexists; (split; [done|]); (split; [lia|]);
        split; reflexivity.
  - right. destruct direction.
    + exists p, (Z.of_nat (length (migrations w))). eexists.
      split; [done|]. split; [lia|]. split; reflexivity.
    + exists p, 0. eexists. split; [done|]. split; [lia|]. split; reflexivity.
Qed.

(** What a run logs: an opening without invocations, the steps of the
    migrations it ran, each taken with the position the run ends with, and
    a closing without invocations. *)
Lemma migrate_events env direction migrationName w :
  exists opening ran closing,
    events w (migrate env direction migrationName w)
    = opening
      ++ (ran ≫= step_events direction
                   (pos (migrate env direction migrationName w)))
      ++ closing
    /\ invoked opening = [] /\ invoked closing = [].
Proof.
  destruct (migrate_cases env direction migrationName w)
    as [Hnone|[(p & _ & _ & _ & ->)|(p & mp & slice & _ & _ & -> & _)]].
  - destruct (migrate_not_entered env direction migrationName w Hnone)
      as (err & [E|E] & _); rewrite E.
    + by exists [Emit_load; Db_connect], [], [Emit_error err].
    + by exists [Emit_load; Db_connect; Db_select], [], [Emit_error err].
  - exists [Emit_load; Db_connect; Db_select;
            Console_error (String.append "Could not find migration: "
                             (Js.to_string migrationName));
            Process_exit 1], [], [].
    split; [|done]. apply events_app. simpl. by rewrite <- !app_assoc.
  - match goal with |- context [set_pos ?x (entered w)] => set (p' := x) end.
    destruct (next_events env direction slice (set_pos p' (entered w)))
      as (ran & closing & El & Ic & _).
    exists [Emit_load; Db_connect; Db_select], ran, closing.
    split; [|done]. apply events_app.
    rewrite El, pos_next, log_started. by rewrite <- !app_assoc.
Qed.

(** A run in which an executed operation called back with an error. *)
Lemma migrate_failed_run env direction migrationName w m err :
  m ∈ executed w (migrate env direction migrationName w) ->
  Migration.op direction m = Failed err ->
  exists ran,
    events w (migrate env direction migrationName w)
    = [Emit_load; Db_connect; Db_select]
      ++ (ran ≫= step_events direction
                   (pos (migrate env direction migrationName w)))
      ++ [Emit_error err]
    /\ last ran = Some m
    /\ table (migrate env direction migrationName w) = table w.
Proof.
  unfold executed.
  destruct (migrate_cases env direction migrationName w)
    as [Hnone|[(p & _ & _ & _ & ->)|(p & mp & slice & _ & _ & -> & _)]].
  - destruct (migrate_not_entered env direction migrationName w Hnone)
      as (err' & [E|E] & _); rewrite E; simpl; intros H;
      by apply elem_of_nil in H.
  - rewrite (events_app _ _
               [Emit_load; Db_connect; Db_select;
                Console_error (String.append "Could not find migration: "
                                 (Js.to_string migrationName));
                Process_exit 1])
      by (simpl; by rewrite <- !app_assoc).
    simpl. intros H. by apply elem_of_nil in H.
  - match goal with |- context [set_pos ?x (entered w)] => set (p' := x) end.
    destruct (next_events env direction slice (set_pos p' (entered w)))
      as (ran & closing & El & Ic & Hfail).
    assert (E : events w (next env direction None slice (set_pos p' (entered w)))
                = [Emit_load; Db_connect; Db_select]
                  ++ (ran ≫= step_events direction p') ++ closing).
    { apply events_app. rewrite El, log_started, pos_set_pos.
      by rewrite <- !app_assoc. }
    rewrite E, pos_next, pos_set_pos.
    rewrite !invoked_app, invoked_steps, Ic, app_nil_r. simpl.
    intros Hin Hop. destruct (Hfail m err Hin Hop) as (Hlast & -> & Htable).
    exists ran. by rewrite Htable.
Qed.

(** ** Targets that are not found *)

(** With a title that is not empty and that no registered migration
    carries, [_migrate] prints its message and exits. *)
Lemma _migrate_absent env direction t w :
  t <> EmptyString ->
  t ∉ Migration.title <$> migrations w ->
  _migrate env direction (Some t) w
  = record (Process_exit 1)
      (record (Console_error (String.append "Could not find migration: " t)) w).
Proof.
  intros Ht Habsent. unfold _migrate. rewrite (truthy_nonempty t Ht).
  simpl. by rewrite (positionOfMigration_absent _ _ Habsent).
Qed.

(** C6, as the code has it.  A run with a target title that is not the
    empty string and that no registered migration carries executes no
    migration, sends no INSERT and leaves the table as it was; when the
    run gets as far as [_migrate] it ends there at once, with the message
    on the console and the exit of the process. *)
Theorem unresolved_target_aborts
    (env : Env) (direction : Direction) (t : string) (w : World) :
  t <> EmptyString ->
  t ∉ Migration.title <$> migrations w ->
  executed w (migrate env direction (Some t) w) = []
  /\ upserts (events w (migrate env direction (Some t) w)) = []
  /\ table (migrate env direction (Some t) w) = table w
  /\ forall p, starting_position env w = Some p ->
       events w (migrate env direction (Some t) w)
       = [Emit_load; Db_connect; Db_select;
          Console_error (String.append "Could not find migration: " t);
          Process_exit 1].
Proof.
  intros Ht Habsent. unfold executed.
  destruct (starting_position env w) as [p|] eqn:Hstart.
  - rewrite (migrate_enters _ _ _ _ _ Hstart).
    rewrite _migrate_absent by done.
    rewrite (events_app _ _
               [Emit_load; Db_connect; Db_select;
                Console_error (String.append "Could not find migration: " t);
                Process_exit 1])
      by (simpl; by rewrite <- !app_assoc).
    repeat split; done.
  - destruct (migrate_not_entered env direction (Some t) w Hstart)
      as (err & [E|E] & _ & Htable); rewrite E, Htable; done.
Qed.

Lemma unresolved_target_aborts_witness :
  executed Sample.fresh
    (migrate Sample.healthy Up (Some "004"%string) Sample.fresh)
  = []
  /\ table (migrate Sample.healthy Up (Some "004"%string) Sample.fresh) = None
  /\ events Sample.fresh
       (migrate Sample.healthy Up (Some "004"%string) Sample.fresh)
     = [Emit_load; Db_connect; Db_select;
        Console_error "Could not find migration: 004"; Process_exit 1].
Proof.
  destruct (unresolved_target_aborts Sample.healthy Up "004" Sample.fresh)
    as (Hexec & _ & Htable & Hevents).
  - discriminate.
  - apply absent_by_comparison. reflexivity.
  - split; [exact Hexec|]. split; [exact Htable|].
    exact (Hevents 0 eq_refl).
Defined.

(** C6 as stated fails for the empty title.  The set holds the migration
    001 alone, the table is empty and the database answers every request.
    No registered migration carries the empty title, so the specification
    gives a run that executes nothing and leaves the table empty.  The
    code takes the empty title for no target: [up] executes 001 and writes
    the row with position 1. *)
Lemma unresolved_target_counterexample :
  (EmptyString ∉ Migration.title <$> migrations Sample.single)
  /\ executed Sample.single
       (up Sample.healthy (Some EmptyString) Sample.single)
     = [Sample.m001]
  /\ table Sample.single = None
  /\ table (up Sample.healthy (Some EmptyString) Sample.single)
     = Some (Sample.row_of [Sample.m001] 1).
Proof.
  split; [|repeat split; reflexivity].
  apply absent_by_comparison. reflexivity.
Qed.

(** ** Fatal conditions *)

Lemma parse_error text err :
  JSON.parse text = inl err -> err = JSON.SyntaxError.
Proof.
  unfold JSON.parse. repeat case_match; congruence.
Qed.

(** With the model's decoder, [migrate_with] is [migrate]. *)
Lemma migrate_with_parse env direction migrationName w :
  migrate_with JSON.parse env direction migrationName w
  = migrate env direction migrationName w.
Proof.
  unfold migrate_with, migrate, load_with, load, connectDb.
  destruct (connect_error env); [done|].
  destruct (select_error env); [done|].
  by destruct (JSON.parse _).
Qed.




(** ** Loading *)

(** C8.  Fresh project default.  When the connection and the SELECT
    succeed and the table holds no row, [load] calls its callback without
    an error, with the empty list of migrations and position 0. *)
Theorem load_without_record
    (env : Env) (fn : Error + Loaded.t -> World -> World) (w : World) :
  connect_error env = None ->
  select_error env = None ->
  table w = None ->
  load env fn w
  = fn (inr {| Loaded.migrations := JSON.Array []; Loaded.pos := 0 |})
      (entered w).
Proof.
  intros Hc Hs Ht. unfold load, connectDb. rewrite Hc, Hs.
  change (stored_row (record Db_select _)) with (stored_row w).
  unfold stored_row. by rewrite Ht.
Qed.

Lemma load_without_record_witness :
  load Sample.healthy Sample.keep_position Sample.fresh
  = Sample.keep_position
      (inr {| Loaded.migrations := JSON.Array []; Loaded.pos := 0 |})
      (entered Sample.fresh).
Proof.
  apply (load_without_record Sample.healthy Sample.keep_position Sample.fresh);
    reflexivity.
Defined.

(** ** The position invariant *)

(** C9.  A run of either direction, with or without a target, found or
    not, that starts at a position [p] with [0 <= p <= N] leaves the
    registry as it was and the position of the set between 0 and [N]. *)
Theorem position_stays_in_range
    (env : Env) (direction : Direction) (migrationName : option string)
    (w : World) (p : Z) :
  starting_position env w = Some p ->
  0 <= p <= Z.of_nat (length (migrations w)) ->
  migrations (migrate env direction migrationName w) = migrations w
  /\ 0 <= pos (migrate env direction migrationName w)
       <= Z.of_nat (length (migrations (migrate env direction migrationName w))).
Proof.
  intros Hstart Hp.
  destruct (migrate_cases env direction migrationName w)
    as [Hnone|[(p' & Hp' & _ & _ & ->)|(p' & mp & slice & Hp' & Hmp & -> & Hslice)]].
  - congruence.
  - assert (p' = p) as -> by congruence. split; [done|]. exact Hp.
  - assert (p' = p) as -> by congruence.
    rewrite migrations_next, pos_next, pos_set_pos.
    change (migrations (set_pos _ (entered w))) with (migrations w).
    split; [done|]. subst slice. destruct direction.
    + pose proof (slice_length_le (migrations w) p (mp + 1)). lia.
    + rewrite length_reverse.
      pose proof (slice_length_le (migrations w) mp p). lia.
Qed.

Lemma position_stays_in_range_witness :
  starting_position Sample.healthy (Sample.applied 2) = Some 2
  /\ 0 <= pos (migrate Sample.healthy Down (Some "003"%string) (Sample.applied 2))
       <= 3.
Proof.
  split; [reflexivity|].
  apply (position_stays_in_range Sample.healthy Down (Some "003"%string)
           (Sample.applied 2) 2); [reflexivity|simpl; lia].
Defined.

(** A set as its constructor leaves it satisfies the invariant. *)
Lemma new_set_in_range path :
  0 <= MigrationSet.pos (MigrationSet.new path)
    <= Z.of_nat (length (MigrationSet.migrations (MigrationSet.new path))).
Proof. simpl. lia. Qed.

(** ** Position and persistence when a migration fails *)

(** C10.  In every run, each operation is invoked while the set already
    holds the position the run ends with: the position is moved by the
    length of the whole slice before the drain starts, whatever the
    operations do.  And when an executed operation calls back with an
    error, the run consists of the load, the steps of the migrations run
    and the [error] event: there is no [complete], no INSERT and no
    [save], and the table is as it was. *)
Theorem position_moved_before_drain
    (env : Env) (direction : Direction) (migrationName : option string)
    (w : World) :
  (forall m d p',
      Invoke m d p' ∈ events w (migrate env direction migrationName w) ->
      p' = pos (migrate env direction migrationName w))
  /\ (forall migrationPos w1,
        pos (run_from env Up migrationPos w1)
        = pos w1
          + Z.of_nat (length (Js.slice (migrations w1) (pos w1)
                                (migrationPos + 1)))
        /\ pos (run_from env Down migrationPos w1)
           = pos w1
             - Z.of_nat (length (Js.slice (migrations w1) migrationPos
                                   (pos w1))))
  /\ (forall m err,
        m ∈ executed w (migrate env direction migrationName w) ->
        Migration.op direction m = Failed err ->
        (exists ran,
            events w (migrate env direction migrationName w)
            = [Emit_load; Db_connect; Db_select]
              ++ (ran ≫= step_events direction
                           (pos (migrate env direction migrationName w)))
              ++ [Emit_error err])
        /\ upserts (events w (migrate env direction migrationName w)) = []
        /\ table (migrate env direction migrationName w) = table w).
Proof.
  split; [|split].
  - intros m d p' Hin.
    destruct (migrate_events env direction migrationName w)
      as (opening & ran & closing & E & Io & Ic).
    rewrite E in Hin. rewrite !elem_of_app in Hin.
    destruct Hin as [Hin|[Hin|Hin]].
    + apply invoked_elem in Hin. rewrite Io in Hin. by apply elem_of_nil in Hin.
    + by apply steps_elem in Hin.
    + apply invoked_elem in Hin. rewrite Ic in Hin. by apply elem_of_nil in Hin.
  - intros migrationPos w1. unfold run_from.
    rewrite !pos_next, !pos_set_pos, length_reverse. done.
  - intros m err Hin Hop.
    destruct (migrate_failed_run _ _ _ _ _ _ Hin Hop) as (ran & E & _ & Ht).
    split; [by exists ran|]. split; [|done].
    by rewrite E, !upserts_app, upserts_steps.
Qed.

Lemma position_moved_before_drain_witness :
  pos (migrate Sample.healthy Up None Sample.with_broken) = 3
  /\ events Sample.with_broken (migrate Sample.healthy Up None Sample.with_broken)
     = [Emit_load; Db_connect; Db_select;
        Emit_migration Sample.m001 Up; Invoke Sample.m001 Up 3;
        Emit_migration Sample.broken Up; Invoke Sample.broken Up 3;
        Emit_error Sample.boom]
  /\ upserts (events Sample.with_broken
                (migrate Sample.healthy Up None Sample.with_broken)) = []
  /\ table (migrate Sample.healthy Up None Sample.with_broken) = None.
Proof.
  split; [reflexivity|]. split; [reflexivity|].
  apply (position_moved_before_drain Sample.healthy Up None Sample.with_broken)
    with (m := Sample.broken) (err := Sample.boom).
  - vm_compute. right. left.
  - reflexivity.
Defined.

(** ** The scenario of the specification *)

(** Migrations 001, 002, 003 on a fresh project: [up()] executes the
    three in this order, leaves position 3 and writes it to the table. *)
Example scenario_up :
  executed Sample.fresh (up Sample.healthy None Sample.fresh) = Sample.registry
  /\ pos (up Sample.healthy None Sample.fresh) = 3
  /\ table (up Sample.healthy None Sample.fresh)
     = Some (Sample.row_of Sample.registry 3).
Proof. repeat split; reflexivity. Qed.

(** With the three applied, [down] to 001 undoes 003, 002, 001. *)
Example scenario_down_to_001 :
  executed (Sample.applied 3)
    (down Sample.healthy (Some "001"%string) (Sample.applied 3))
  = [Sample.m003; Sample.m002; Sample.m001]
  /\ pos (down Sample.healthy (Some "001"%string) (Sample.applied 3)) = 0.
Proof. split; reflexivity. Qed.

(** On the fresh project, [up] to 002 executes 001, 002. *)
Example scenario_up_to_002 :
  executed Sample.fresh (up Sample.healthy (Some "002"%string) Sample.fresh)
  = [Sample.m001; Sample.m002]
  /\ pos (up Sample.healthy (Some "002"%string) Sample.fresh) = 2.
Proof. split; reflexivity. Qed.

(** * Further properties of [lib/set.js] *)

(** ** The registry lookup in full *)

(** X1.  [positionOfMigration] finds the first migration with the title:
    an index it returns lies inside the registry, the migration there
    carries the title, and no migration before it does. *)
Theorem positionOfMigration_first_match
    (ms : list Migration.t) (filename : string) (i : Z) :
  positionOfMigration ms filename = i ->
  i <> -1 ->
  0 <= i < Z.of_nat (length ms)
  /\ exists m, ms !! Z.to_nat i = Some m
               /\ Migration.title m = filename
               /\ filename ∉ Migration.title <$> take (Z.to_nat i) ms.
Proof.
  intros Hi Hfound. split.
  - rewrite <- Hi in *. by apply positionOfMigration_range.
  - destruct (positionOfMigration_from_found 0 ms filename i) as (m & H);
      [lia|done|done|].
    rewrite Z.sub_0_r in H. by exists m.
Qed.

Lemma positionOfMigration_first_match_witness :
  positionOfMigration Sample.twice "002" = 1
  /\ 0 <= 1 < Z.of_nat (length Sample.twice)
  /\ exists m, Sample.twice !! Z.to_nat 1 = Some m
               /\ Migration.title m = "002"%string
               /\ ("002"%string
                   ∉ Migration.title <$> take (Z.to_nat 1) Sample.twice).
Proof.
  split; [reflexivity|].
  apply (positionOfMigration_first_match Sample.twice "002" 1);
    [reflexivity|lia].
Defined.

Lemma positionOfMigration_from_present i ms filename :
  0 <= i ->
  filename ∈ Migration.title <$> ms ->
  positionOfMigration_from i ms filename <> -1.
Proof.
  revert i. induction ms as [|m ms IH]; intros i Hi Hin; simpl.
  - by apply elem_of_nil in Hin.
  - destruct (String.eqb_spec (Migration.title m) filename) as [E|E]; [lia|].
    rewrite fmap_cons in Hin. apply elem_of_cons in Hin as [Hin|Hin];
      [congruence|].
    apply IH; [lia|done].
Qed.

(** X2.  [positionOfMigration] returns -1 exactly for the titles that no
    registered migration carries. *)
Theorem positionOfMigration_not_found
    (ms : list Migration.t) (filename : string) :
  positionOfMigration ms filename = -1
  <-> filename ∉ Migration.title <$> ms.
Proof.
  split.
  - intros E Hin.
    by apply (positionOfMigration_from_present 0 ms filename) in Hin.
  - apply positionOfMigration_absent.
Qed.

(** ** The shape of a run, in full *)

Lemma save_assigned env w :
  db w = true ->
  log (save env w) = log w ++ Db_upsert (params_of w) :: after_upsert env
  /\ table (save env w) = after_upsert_table env (params_of w) (table w).
Proof.
  intros Hdb. rewrite save_connected by done.
  unfold saveToDatabase, disconnectDb, after_upsert, after_upsert_table.
  fold (params_of w).
  destruct (upsert_error env); simpl; by rewrite <- ?app_assoc.
Qed.

(** The three ways a drain ends, with the connection assigned: with
    [complete] and the save, with the error of the first operation that
    fails, or with the first operation that never calls back. *)
Lemma next_shape env direction queue w :
  db w = true ->
  (all_done direction queue
   /\ log (next env direction None queue w)
      = log w ++ (queue ≫= step_events direction (pos w))
        ++ Emit_complete :: Db_upsert (params_of w) :: after_upsert env
   /\ table (next env direction None queue w)
      = after_upsert_table env (params_of w) (table w))
  \/ (exists pre m post,
        queue = pre ++ m :: post
        /\ all_done direction pre
        /\ table (next env direction None queue w) = table w
        /\ ((exists err,
               Migration.op direction m = Failed err
               /\ log (next env direction None queue w)
                  = log w ++ ((pre ++ [m]) ≫= step_events direction (pos w))
                    ++ [Emit_error err])
            \/ (Migration.op direction m = Pending
                /\ log (next env direction None queue w)
                   = log w
                     ++ ((pre ++ [m]) ≫= step_events direction (pos w))))).
Proof.
  intros Hdb.
  destruct (queue_cases direction queue)
    as [Hall|(pre & m & post & -> & Hpre & Hm)]; [left|right].
  - split; [done|]. rewrite next_all_done by done.
    destruct (save_assigned env
                (record Emit_complete (played direction queue w)))
      as [El Et]; [simpl; by rewrite db_played|].
    rewrite El, Et.
    change (params_of (record Emit_complete (played direction queue w)))
      with {| TableRow.migrations :=
                stringify_migrations
                  (MigrationSet.migrations (self (played direction queue w)));
              TableRow.pos :=
                MigrationSet.pos (self (played direction queue w)) |}.
    rewrite self_played. fold (migrations w) (pos w) (params_of w).
    simpl. rewrite log_played, table_played. by rewrite <- !app_assoc.
  - exists pre, m, post. split; [done|]. split; [done|].
    destruct (Migration.op direction m) as [|e|] eqn:Hop; [done| |].
    + rewrite (next_first_failure env direction pre m post e) by done.
      split; [simpl; apply table_played|]. left. exists e. split; [done|].
      simpl. rewrite log_played. by rewrite <- !app_assoc.
    + rewrite (next_first_pending env direction pre m post) by done.
      split; [apply table_played|]. right. split; [done|]. apply log_played.
Qed.

(** A run that has a starting position [p] ends in one of four ways: at
    the target that is not found; or, the slice cut and the position
    moved, with [complete] and the save, with the error of the first
    operation that fails, or at the first operation that never calls
    back. *)
Lemma run_shape env direction migrationName w p :
  starting_position env w = Some p ->
  (Js.truthy migrationName = true
   /\ target_index direction (migrations w) migrationName = -1
   /\ events w (migrate env direction migrationName w)
      = [Emit_load; Db_connect; Db_select;
         Console_error (String.append "Could not find migration: "
                          (Js.to_string migrationName));
         Process_exit 1]
   /\ pos (migrate env direction migrationName w) = p
   /\ table (migrate env direction migrationName w) = table w)
  \/ (exists slice,
        slice = run_slice direction (migrations w) p
                  (target_index direction (migrations w) migrationName)
        /\ 0 <= target_index direction (migrations w) migrationName
        /\ pos (migrate env direction migrationName w)
           = moved direction p (length slice)
        /\ ((all_done direction slice
             /\ events w (migrate env direction migrationName w)
                = [Emit_load; Db_connect; Db_select]
                  ++ (slice ≫= step_events direction
                                 (pos (migrate env direction migrationName w)))
                  ++ Emit_complete
                     :: Db_upsert
                          (params_of (migrate env direction migrationName w))
                     :: after_upsert env
             /\ table (migrate env direction migrationName w)
                = after_upsert_table env
                    (params_of (migrate env direction migrationName w))
                    (table w))
            \/ (exists pre m post,
                  slice = pre ++ m :: post
                  /\ all_done direction pre
                  /\ table (migrate env direction migrationName w) = table w
                  /\ ((exists err,
                         Migration.op direction m = Failed err
                         /\ events w (migrate env direction migrationName w)
                            = [Emit_load; Db_connect; Db_select]
                              ++ ((pre ++ [m])
                                    ≫= step_events direction
                                         (pos (migrate env direction
                                                 migrationName w)))
                              ++ [Emit_error err])
                      \/ (Migration.op direction m = Pending
                          /\ events w (migrate env direction migrationName w)
                             = [Emit_load; Db_connect; Db_select]
                               ++ ((pre ++ [m])
                                     ≫= step_events direction
                                          (pos (migrate env direction
                                                  migrationName w)))))))).
Proof.
  intros Hstart. rewrite (migrate_enters _ _ _ _ _ Hstart).
  assert (Hrun : forall mp,
            0 <= mp ->
            target_index direction (migrations w) migrationName = mp ->
            _migrate env direction migrationName (set_pos p (entered w))
            = next env direction None
                (run_slice direction (migrations w) p mp)
                (set_pos (moved direction p
                            (length (run_slice direction (migrations w) p mp)))
                   (entered w))).
  { intros mp Hmp Ht. unfold _migrate, target_index in *.
    change (migrations (set_pos p (entered w))) with (migrations w).
    destruct (Js.truthy migrationName); simpl.
    - rewrite Ht. destruct (Z.eqb_spec mp (-1)); [lia|].
      by destruct direction.
    - rewrite <- Ht. by destruct direction. }
  assert (Hindex : target_index direction (migrations w) migrationName = -1
                   \/ 0 <= target_index direction (migrations w) migrationName).
  { unfold target_index. destruct (Js.truthy migrationName).
    - destruct (Z.eq_dec (positionOfMigration (migrations w)
                            (Js.to_string migrationName)) (-1)) as [E|E];
        [by left|right]. apply positionOfMigration_range in E. lia.
    - right. destruct direction; lia. }
  destruct Hindex as [Hnot|Hidx].
  - left. assert (Ht : Js.truthy migrationName = true).
    { unfold target_index in Hnot. destruct (Js.truthy migrationName); [done|].
      destruct direction; lia. }
    split; [done|]. split; [done|].
    unfold _migrate, target_index in *. rewrite Ht in *. simpl.
    change (migrations (set_pos p (entered w))) with (migrations w).
    rewrite Hnot. simpl. split; [|done].
    apply events_app. simpl. by rewrite <- !app_assoc.
  - right. rewrite (Hrun _ Hidx eq_refl).
    set (slice := run_slice direction (migrations w) p
                    (target_index direction (migrations w) migrationName)).
    set (w2 := set_pos (moved direction p (length slice)) (entered w)).
    exists slice. split; [done|]. split; [done|].
    rewrite pos_next. change (pos w2) with (moved direction p (length slice)).
    split; [done|].
    assert (Hparams : params_of (next env direction None slice w2)
                      = params_of w2).
    { unfold params_of, migrations, pos. by rewrite self_next. }
    assert (Hlog : log w2 = log w ++ [Emit_load; Db_connect; Db_select])
      by apply log_entered.
    destruct (next_shape env direction slice w2 eq_refl)
      as [(Hall & El & Et)|(pre & m & post & Es & Hpre & Et & Hend)].
    + left. split; [done|]. rewrite Hparams. split; [|done].
      apply events_app. rewrite El, Hlog. by rewrite <- !app_assoc.
    + right. exists pre, m, post. split; [done|]. split; [done|].
      split; [done|].
      destruct Hend as [(err & Hop & El)|(Hop & El)]; [left|right].
      * exists err. split; [done|]. apply events_app.
        rewrite El, Hlog. by rewrite <- !app_assoc.
      * split; [done|]. apply events_app.
        rewrite El, Hlog. by rewrite <- !app_assoc.
Qed.

Lemma attempted_all_done direction queue :
  all_done direction queue -> attempted direction queue = queue.
Proof.
  induction 1 as [|m queue Hm _ IH]; [done|]. simpl. by rewrite Hm, IH.
Qed.

Lemma attempted_first direction pre m post :
  all_done direction pre ->
  Migration.op direction m <> Done ->
  attempted direction (pre ++ m :: post) = pre ++ [m].
Proof.
  induction 1 as [|m' pre Hm' _ IH]; intros Hm; simpl.
  - by destruct (Migration.op direction m).
  - by rewrite Hm', IH.
Qed.

(** What a run that has a starting position executes, and where it
    leaves the position: nothing and the starting position when the
    target is not found, else the invoked part of the slice and the
    position moved by the whole slice. *)
Lemma run_result env direction migrationName w p :
  starting_position env w = Some p ->
  executed w (migrate env direction migrationName w)
  = (if target_index direction (migrations w) migrationName =? -1
     then []
     else attempted direction
            (run_slice direction (migrations w) p
               (target_index direction (migrations w) migrationName)))
  /\ pos (migrate env direction migrationName w)
     = (if target_index direction (migrations w) migrationName =? -1
        then p
        else moved direction p
               (length (run_slice direction (migrations w) p
                          (target_index direction (migrations w)
                             migrationName)))).
Proof.
  intros Hstart.
  destruct (run_shape env direction migrationName w p Hstart)
    as [(_ & -> & E & Hpos & _)|(slice & -> & Hidx & Hpos & Hend)].
  - simpl. unfold executed. by rewrite E.
  - destruct (Z.eqb_spec (target_index direction (migrations w) migrationName)
                (-1)) as [|_]; [lia|].
    split; [|done]. unfold executed.
    destruct Hend as [(Hall & -> & _)|(pre & m & post & Es & Hpre & _ & Hend)].
    + rewrite !invoked_app, invoked_steps, attempted_all_done by done.
      unfold after_upsert. destruct (upsert_error env); simpl;
        by rewrite app_nil_r.
    + rewrite Es.
      destruct Hend as [(err & Hop & ->)|(Hop & ->)];
        rewrite attempted_first by (done || congruence);
        rewrite !invoked_app, invoked_steps; simpl; by rewrite ?app_nil_r.
Qed.

Lemma steps_only direction p ran (e : Event) :
  e ∈ ran ≫= step_events direction p ->
  (exists m, e = Emit_migration m direction)
  \/ (exists m, e = Invoke m direction p).
Proof.
  intros H. apply list_elem_of_bind in H as (m & H & _).
  unfold step_events in H. rewrite !elem_of_cons in H.
  destruct H as [->|[->|H]]; [left|right|]; try by exists m.
  by apply elem_of_nil in H.
Qed.

(** Splits a membership in a concrete log into its cases and closes
    those that name a different event. *)
Ltac log_cases H :=
  repeat first
    [ apply elem_of_app in H as [H|H]
    | apply elem_of_cons in H as [H|H]
    | apply elem_of_nil in H; destruct H
    | apply steps_only in H as [[? H]|[? H]] ];
  try discriminate H.

(** A run that emits [complete] had a starting position, found its
    target, and drained a slice all of whose operations called back
    without error. *)
Lemma run_completed env direction migrationName w :
  Emit_complete ∈ events w (migrate env direction migrationName w) ->
  exists p slice,
    starting_position env w = Some p
    /\ slice = run_slice direction (migrations w) p
                 (target_index direction (migrations w) migrationName)
    /\ 0 <= target_index direction (migrations w) migrationName
    /\ all_done direction slice
    /\ pos (migrate env direction migrationName w)
       = moved direction p (length slice)
    /\ events w (migrate env direction migrationName w)
       = [Emit_load; Db_connect; Db_select]
         ++ (slice ≫= step_events direction
                        (pos (migrate env direction migrationName w)))
         ++ Emit_complete
            :: Db_upsert (params_of (migrate env direction migrationName w))
            :: after_upsert env
    /\ table (migrate env direction migrationName w)
       = after_upsert_table env
           (params_of (migrate env direction migrationName w)) (table w).
Proof.
  intros Hin. destruct (starting_position env w) as [p|] eqn:Hstart.
  - destruct (run_shape env direction migrationName w p Hstart)
      as [(_ & _ & E & _)|(slice & Es & Hidx & Hpos & Hend)].
    + rewrite E in Hin. log_cases Hin.
    + destruct Hend as [(Hall & E & Et)|(pre & m & post & _ & _ & _ & Hend)].
      * by exists p, slice.
      * destruct Hend as [(err & _ & E)|(_ & E)]; rewrite E in Hin;
          log_cases Hin.
  - destruct (migrate_not_entered env direction migrationName w Hstart)
      as (err & [E|E] & _); rewrite E in Hin; log_cases Hin.
Qed.

(** ** What a completed run writes *)

(** X3.  A run that emits [complete] and whose INSERT succeeds ends with
    [complete], the INSERT, [save] and the release of the connection, in
    this order and after the steps of the migrations it ran; it emits no
    error, and the table then holds the registry as [JSON.stringify]
    writes it and the position the set ends with; this for a registry
    whose titles hold no control character. *)
Theorem completed_run_is_saved
    (env : Env) (direction : Direction) (migrationName : option string)
    (w : World) :
  printable_titles (migrations w) ->
  Emit_complete ∈ events w (migrate env direction migrationName w) ->
  upsert_error env = None ->
  table (migrate env direction migrationName w)
  = Some {| TableRow.migrations := stringify_migrations (migrations w);
            TableRow.pos := pos (migrate env direction migrationName w) |}
  /\ (exists ran,
         events w (migrate env direction migrationName w)
         = [Emit_load; Db_connect; Db_select]
           ++ (ran ≫= step_events direction
                        (pos (migrate env direction migrationName w)))
           ++ [Emit_complete;
               Db_upsert (params_of (migrate env direction migrationName w));
               Emit_save; Db_destroy])
  /\ errors (events w (migrate env direction migrationName w)) = [].
Proof.
  intros _ Hin Hup.
  destruct (run_completed env direction migrationName w Hin)
    as (p & slice & Hstart & Es & _ & _ & _ & E & Et).
  unfold after_upsert, after_upsert_table in *. rewrite Hup in *.
  assert (Hms : migrations (migrate env direction migrationName w)
                = migrations w).
  { destruct (migrate_cases env direction migrationName w)
      as [Hnone|[(p' & _ & _ & _ & ->)|(p' & mp & q & _ & _ & -> & _)]];
      [congruence|done|by rewrite migrations_next]. }
  split; [|split].
  - rewrite Et. unfold params_of. by rewrite Hms.
  - by exists slice.
  - rewrite E, !errors_app, errors_steps. done.
Qed.

Lemma completed_run_is_saved_witness :
  table (migrate Sample.healthy Up (Some "002"%string) Sample.fresh)
  = Some (Sample.row_of Sample.registry 2)
  /\ errors (events Sample.fresh
               (migrate Sample.healthy Up (Some "002"%string) Sample.fresh))
     = [].
Proof.
  destruct (completed_run_is_saved Sample.healthy Up (Some "002"%string)
              Sample.fresh) as (Ht & _ & He).
  - repeat constructor.
  - vm_compute. do 7 right. left.
  - reflexivity.
  - split; [exact Ht|exact He].
Defined.

(** X4.  A run that emits [complete] and whose INSERT fails ends with the
    error of the INSERT as its one [error] event: [save] is not emitted,
    the connection is not released, and the table is as it was, while the
    set keeps the position it was moved to. *)
Theorem failed_save_is_reported
    (env : Env) (direction : Direction) (migrationName : option string)
    (w : World) (err : Error) :
  Emit_complete ∈ events w (migrate env direction migrationName w) ->
  upsert_error env = Some err ->
  table (migrate env direction migrationName w) = table w
  /\ (exists ran,
         events w (migrate env direction migrationName w)
         = [Emit_load; Db_connect; Db_select]
           ++ (ran ≫= step_events direction
                        (pos (migrate env direction migrationName w)))
           ++ [Emit_complete;
               Db_upsert (params_of (migrate env direction migrationName w));
               Emit_error err])
  /\ errors (events w (migrate env direction migrationName w)) = [err]
  /\ (Emit_save ∉ events w (migrate env direction migrationName w))
  /\ (Db_destroy ∉ events w (migrate env direction migrationName w)).
Proof.
  intros Hin Hup.
  destruct (run_completed env direction migrationName w Hin)
    as (p & slice & Hstart & Es & _ & _ & _ & E & Et).
  unfold after_upsert, after_upsert_table in *. rewrite Hup in *.
  split; [done|]. split; [by exists slice|].
  rewrite E. split; [by rewrite !errors_app, errors_steps|].
  split; intros H; log_cases H.
Qed.

Lemma failed_save_is_reported_witness :
  table (migrate Sample.read_only Up None Sample.fresh) = None
  /\ pos (migrate Sample.read_only Up None Sample.fresh) = 3
  /\ errors (events Sample.fresh (migrate Sample.read_only Up None Sample.fresh))
     = [{| code := Some "ER_OPTION_PREVENTS_STATEMENT"%string;
           message := "read only" |}].
Proof.
  destruct (failed_save_is_reported Sample.read_only Up None Sample.fresh
              {| code := Some "ER_OPTION_PREVENTS_STATEMENT"%string;
                 message := "read only" |}) as (Ht & _ & He & _).
  - vm_compute. do 9 right. left.
  - reflexivity.
  - split; [exact Ht|]. split; [reflexivity|exact He].
Defined.

(** ** Errors of the SELECT *)

(** X5.  When the SELECT of [load] reports an error whose code is not
    ENOENT, the run ends with that error as its [error] event: nothing is
    executed, and the set and the table are as they were. *)
Theorem failed_select_ends_run
    (env : Env) (direction : Direction) (migrationName : option string)
    (w : World) (err : Error) :
  connect_error env = None ->
  select_error env = Some err ->
  has_code "ENOENT" err = false ->
  events w (migrate env direction migrationName w)
  = [Emit_load; Db_connect; Db_select; Emit_error err]
  /\ executed w (migrate env direction migrationName w) = []
  /\ self (migrate env direction migrationName w) = self w
  /\ table (migrate env direction migrationName w) = table w.
Proof.
  intros Hc Hs Hcode.
  assert (E : migrate env direction migrationName w
              = record (Emit_error err) (entered w)).
  { unfold migrate, load, connectDb. by rewrite Hc, Hs, Hcode. }
  assert (Ev : events w (migrate env direction migrationName w)
               = [Emit_load; Db_connect; Db_select; Emit_error err]).
  { apply events_app. rewrite E. simpl. by rewrite <- !app_assoc. }
  unfold executed. rewrite Ev. by rewrite E.
Qed.

Lemma failed_select_ends_run_witness :
  events Sample.fresh (migrate Sample.no_table Up None Sample.fresh)
  = [Emit_load; Db_connect; Db_select;
     Emit_error {| code := Some "ER_NO_SUCH_TABLE"%string;
                   message := "no such table" |}]
  /\ executed Sample.fresh (migrate Sample.no_table Up None Sample.fresh) = []
  /\ self (migrate Sample.no_table Up None Sample.fresh) = self Sample.fresh
  /\ table (migrate Sample.no_table Up None Sample.fresh) = table Sample.fresh.
Proof.
  apply (failed_select_ends_run Sample.no_table Up None Sample.fresh);
    reflexivity.
Defined.

(** X6.  When the SELECT of [load] reports an error whose code is ENOENT,
    the error is dropped and the run goes on into [_migrate] with the
    position the set has in memory: the stored position is not read. *)
Theorem enoent_select_is_ignored
    (env : Env) (direction : Direction) (migrationName : option string)
    (w : World) (err : Error) :
  connect_error env = None ->
  select_error env = Some err ->
  has_code "ENOENT" err = true ->
  migrate env direction migrationName w
  = _migrate env direction migrationName (entered w)
  /\ starting_position env w = Some (pos w).
Proof.
  intros Hc Hs Hcode. unfold starting_position, migrate, load, connectDb.
  by rewrite Hc, Hs, Hcode.
Qed.

Lemma enoent_select_is_ignored_witness :
  migrate Sample.enoent Up None (Sample.applied 2)
  = _migrate Sample.enoent Up None (entered (Sample.applied 2))
  /\ starting_position Sample.enoent (Sample.applied 2) = Some 0.
Proof.
  apply (enoent_select_is_ignored Sample.enoent Up None (Sample.applied 2)
           {| code := Some "ENOENT"%string; message := "no such file" |});
    reflexivity.
Defined.

(** ** Operations that never call back *)

(** X7.  When an executed operation never calls back, the run stands
    still at it: the log ends with the invocation of that operation, with
    no [complete], no [error] and no INSERT after it, and the table is as
    it was. *)
Theorem pending_operation_stalls
    (env : Env) (direction : Direction) (migrationName : option string)
    (w : World) (m : Migration.t) :
  m ∈ executed w (migrate env direction migrationName w) ->
  Migration.op direction m = Pending ->
  (exists ran,
      events w (migrate env direction migrationName w)
      = [Emit_load; Db_connect; Db_select]
        ++ (ran ≫= step_events direction
                     (pos (migrate env direction migrationName w)))
      /\ last ran = Some m)
  /\ errors (events w (migrate env direction migrationName w)) = []
  /\ upserts (events w (migrate env direction migrationName w)) = []
  /\ table (migrate env direction migrationName w) = table w.
Proof.
  intros Hin Hop. unfold executed in Hin.
  destruct (starting_position env w) as [p|] eqn:Hstart.
  2:{ destruct (migrate_not_entered env direction migrationName w Hstart)
        as (err & [E|E] & _); rewrite E in Hin; simpl in Hin;
        by apply elem_of_nil in Hin. }
  destruct (run_shape env direction migrationName w p Hstart)
    as [(_ & _ & E & _)|(slice & Es & Hidx & Hpos & Hend)].
  { rewrite E in Hin. simpl in Hin. by apply elem_of_nil in Hin. }
  assert (Hdone : forall q, all_done direction q -> m ∈ q -> False).
  { intros q Hq Hm. apply (proj1 (Forall_forall _ _) Hq) in Hm. congruence. }
  destruct Hend as [(Hall & E & _)|(pre & m' & post & _ & Hpre & Et & Hend)].
  - exfalso. rewrite E, !invoked_app, invoked_steps in Hin. simpl in Hin.
    apply elem_of_app in Hin as [Hin|Hin]; [by eapply Hdone|].
    unfold after_upsert in Hin. destruct (upsert_error env); simpl in Hin;
      by apply elem_of_nil in Hin.
  - destruct Hend as [(err & Hop' & E)|(Hop' & E)];
      rewrite E in Hin |- *;
      rewrite !invoked_app, invoked_steps in Hin; simpl in Hin;
      rewrite ?app_nil_r in Hin;
      (apply elem_of_app in Hin as [Hin|Hin]; [exfalso; by eapply Hdone|]);
      apply list_elem_of_singleton in Hin as ->.
    + congruence.
    + split; [exists (pre ++ [m']); split; [done|apply last_snoc]|].
      by rewrite !errors_app, !upserts_app, errors_steps, upserts_steps.
Qed.

Lemma pending_operation_stalls_witness :
  events Sample.with_stuck (migrate Sample.healthy Up None Sample.with_stuck)
  = [Emit_load; Db_connect; Db_select;
     Emit_migration Sample.m001 Up; Invoke Sample.m001 Up 3;
     Emit_migration Sample.stuck Up; Invoke Sample.stuck Up 3]
  /\ table (migrate Sample.healthy Up None Sample.with_stuck) = None.
Proof.
  split; [reflexivity|].
  apply (pending_operation_stalls Sample.healthy Up None Sample.with_stuck
           Sample.stuck).
  - vm_compute. right. left.
  - reflexivity.
Defined.

(** ** What a run leaves alone *)

Lemma self_set_pos_registry p w :
  MigrationSet.migrations (self (set_pos p w)) = MigrationSet.migrations (self w)
  /\ MigrationSet.path (self (set_pos p w)) = MigrationSet.path (self w).
Proof. done. Qed.

Lemma db_save env w : db (save env w) = true.
Proof.
  unfold save, connectDb, saveToDatabase, disconnectDb.
  destruct (db w) eqn:Hdb; simpl; repeat case_match; done.
Qed.

Lemma db_next env direction err queue w :
  db w = true -> db (next env direction err queue w) = true.
Proof.
  revert err w. induction queue as [|m queue IH]; intros [e|] w Hdb; simpl;
    try done.
  - apply db_save.
  - destruct (Migration.op direction m); try done; by apply IH.
Qed.

(** X8.  No run changes the registry or the path of the set, and every
    run leaves the connection variable assigned, also a run whose
    connection fails. *)
Theorem run_keeps_registry
    (env : Env) (direction : Direction) (migrationName : option string)
    (w : World) :
  MigrationSet.migrations (self (migrate env direction migrationName w))
  = MigrationSet.migrations (self w)
  /\ MigrationSet.path (self (migrate env direction migrationName w))
     = MigrationSet.path (self w)
  /\ db (migrate env direction migrationName w) = true.
Proof.
  destruct (migrate_cases env direction migrationName w)
    as [Hnone|[(p & _ & _ & _ & ->)|(p & mp & slice & _ & _ & -> & _)]].
  - destruct (migrate_not_entered env direction migrationName w Hnone)
      as (err & _ & -> & _). split; [done|]. split; [done|].
    unfold migrate, load, connectDb, starting_position in *.
    destruct (connect_error env); [done|].
    destruct (select_error env) as [e|].
    + by destruct (has_code "ENOENT" e).
    + change (stored_row (record Db_select _)) with (stored_row w).
      destruct (JSON.parse _) as [e|]; [|done].
      by destruct (has_code "ENOENT" e).
  - done.
  - rewrite self_next. split; [done|]. split; [done|]. by apply db_next.
Qed.

Lemma migrations_migrate env direction migrationName w :
  migrations (migrate env direction migrationName w) = migrations w.
Proof.
  destruct (migrate_cases env direction migrationName w)
    as [Hnone|[(p & _ & _ & _ & ->)|(p & mp & slice & _ & _ & -> & _)]].
  - destruct (migrate_not_entered env direction migrationName w Hnone)
      as (err & _ & Hself & _). unfold migrations. by rewrite Hself.
  - done.
  - by rewrite migrations_next.
Qed.

(** ** Position arithmetic *)

(** X9.  A run of [up] never lowers the position it starts with, and a
    run of [down] never raises it, whatever the target and whatever the
    operations do. *)
Theorem position_moves_one_way
    (env : Env) (direction : Direction) (migrationName : option string)
    (w : World) (p : Z) :
  starting_position env w = Some p ->
  match direction with
  | Up => p <= pos (migrate env direction migrationName w)
  | Down => pos (migrate env direction migrationName w) <= p
  end.
Proof.
  intros Hstart.
  destruct (run_result env direction migrationName w p Hstart) as [_ ->].
  destruct (_ =? -1); destruct direction; simpl; lia.
Qed.

Lemma position_moves_one_way_witness :
  3 <= pos (migrate Sample.healthy Up (Some "001"%string) (Sample.applied 3))
  /\ pos (migrate Sample.healthy Down (Some "003"%string) (Sample.applied 1))
     <= 1.
Proof.
  split.
  - apply (position_moves_one_way Sample.healthy Up (Some "001"%string)
             (Sample.applied 3) 3). reflexivity.
  - apply (position_moves_one_way Sample.healthy Down (Some "003"%string)
             (Sample.applied 1) 1). reflexivity.
Defined.

(** X10.  In a run that emits [complete] the position moves by the number
    of migrations executed: up by it for [up], down by it for [down];
    this for a starting position that stays, with the length of the
    registry added or subtracted, within the integers the numbers of
    JavaScript hold exactly. *)
Theorem completed_run_counts
    (env : Env) (direction : Direction) (migrationName : option string)
    (w : World) (p : Z) :
  starting_position env w = Some p ->
  Z.abs p + Z.of_nat (length (migrations w)) <= MAX_SAFE_INTEGER ->
  Emit_complete ∈ events w (migrate env direction migrationName w) ->
  pos (migrate env direction migrationName w)
  = match direction with
    | Up =>
        p + Z.of_nat (length (executed w (migrate env direction migrationName w)))
    | Down =>
        p - Z.of_nat (length (executed w (migrate env direction migrationName w)))
    end.
Proof.
  intros Hstart _ Hin.
  destruct (run_completed env direction migrationName w Hin)
    as (p' & slice & Hstart' & Es & Hidx & Hall & Hpos & _).
  assert (p' = p) as -> by congruence.
  destruct (run_result env direction migrationName w p Hstart) as [-> _].
  destruct (Z.eqb_spec (target_index direction (migrations w) migrationName)
              (-1)) as [|_]; [lia|].
  rewrite <- Es, attempted_all_done by done. rewrite Hpos. by destruct direction.
Qed.

Lemma completed_run_counts_witness :
  pos (migrate Sample.healthy Down (Some "002"%string) (Sample.applied 3))
  = 3 - Z.of_nat (length (executed (Sample.applied 3)
                            (migrate Sample.healthy Down (Some "002"%string)
                               (Sample.applied 3)))).
Proof.
  apply (completed_run_counts Sample.healthy Down (Some "002"%string)
           (Sample.applied 3) 3).
  - reflexivity.
  - vm_compute. discriminate.
  - vm_compute. do 7 right. left.
Defined.

(** ** Targets on the other side of the position *)

Lemma slice_empty {A : Type} (arr : list A) (a b : Z) :
  0 <= a -> 0 <= b -> b <= a -> Js.slice arr a b = [].
Proof.
  intros Ha Hb Hba. rewrite slice_take_drop by done.
  by replace (Z.to_nat b - Z.to_nat a)%nat with 0%nat by lia.
Qed.

(** X11.  [up] to a migration that lies before the position, and [down]
    to a migration that lies at or after it, execute nothing and leave
    the position where it was; the run still emits [complete] and sends
    one INSERT, with the registry and the unchanged position; this for a
    registry whose titles hold no control character. *)
Theorem target_behind_runs_nothing
    (env : Env) (direction : Direction) (t : string) (w : World) (p i : Z) :
  printable_titles (migrations w) ->
  starting_position env w = Some p ->
  0 <= p ->
  t <> EmptyString ->
  positionOfMigration (migrations w) t = i ->
  i <> -1 ->
  match direction with Up => i < p | Down => p <= i end ->
  executed w (migrate env direction (Some t) w) = []
  /\ pos (migrate env direction (Some t) w) = p
  /\ Emit_complete ∈ events w (migrate env direction (Some t) w)
  /\ upserts (events w (migrate env direction (Some t) w))
     = [{| TableRow.migrations := stringify_migrations (migrations w);
           TableRow.pos := p |}].
Proof.
  intros _ Hstart Hp Ht Hi Hfound Hside.
  assert (Hidx : target_index direction (migrations w) (Some t) = i).
  { unfold target_index. by rewrite (truthy_nonempty t Ht). }
  assert (Hrange : 0 <= i).
  { rewrite <- Hi in Hfound |- *.
    apply positionOfMigration_range in Hfound. lia. }
  assert (Hslice : run_slice direction (migrations w) p i = []).
  { unfold run_slice. destruct direction.
    - apply slice_empty; lia.
    - rewrite slice_empty by lia. done. }
  destruct (run_shape env direction (Some t) w p Hstart)
    as [(_ & Hnot & _)|(slice & Es & _ & Hpos & Hend)]; [congruence|].
  rewrite Hidx, Hslice in Es. subst slice.
  assert (Hpos' : pos (migrate env direction (Some t) w) = p).
  { rewrite Hpos. destruct direction; simpl; lia. }
  destruct Hend as [(_ & E & _)|(pre & m & post & Es & _)].
  2:{ by destruct pre. }
  unfold executed. rewrite E. unfold params_of.
  rewrite migrations_migrate, Hpos'. simpl.
  split; [|split; [done|split]].
  - unfold after_upsert. by destruct (upsert_error env).
  - do 3 right. left.
  - unfold after_upsert. by destruct (upsert_error env).
Qed.

Lemma target_behind_runs_nothing_witness :
  executed (Sample.applied 3)
    (migrate Sample.healthy Up (Some "001"%string) (Sample.applied 3)) = []
  /\ pos (migrate Sample.healthy Up (Some "001"%string) (Sample.applied 3)) = 3
  /\ upserts (events (Sample.applied 3)
                (migrate Sample.healthy Up (Some "001"%string)
                   (Sample.applied 3)))
     = [Sample.row_of Sample.registry 3].
Proof.
  destruct (target_behind_runs_nothing Sample.healthy Up "001"
              (Sample.applied 3) 3 0) as (He & Hp & _ & Hu);
    [repeat constructor|reflexivity|lia|discriminate|reflexivity|lia
    |simpl; lia|].
  split; [exact He|]. split; [exact Hp|exact Hu].
Defined.

(** ** Running again after a failure *)

(** With a SELECT that succeeds, the starting position is read from the
    table alone. *)
Lemma starting_position_stored env w1 w2 :
  select_error env = None ->
  table w1 = table w2 ->
  starting_position env w1 = starting_position env w2.
Proof.
  intros Hs Ht. unfold starting_position, stored_row. rewrite Hs, Ht.
  destruct (connect_error env); [done|].
  destruct (JSON.parse _) as [err|] eqn:Hparse; [|done].
  by rewrite (parse_error _ _ Hparse).
Qed.

(** The lookup reads the titles of the registry and nothing else. *)
Lemma positionOfMigration_from_titles i ms ms' filename :
  Migration.title <$> ms' = Migration.title <$> ms ->
  positionOfMigration_from i ms' filename
  = positionOfMigration_from i ms filename.
Proof.
  revert i ms'. induction ms as [|m ms IH]; intros i [|m' ms'] E; try done.
  injection E as Em Ems. simpl. rewrite Em. destruct (String.eqb _ _); [done|].
  by apply IH.
Qed.

Lemma slice_fmap {A B : Type} (f : A -> B) (arr : list A) (a b : Z) :
  f <$> Js.slice arr a b = Js.slice (f <$> arr) a b.
Proof. unfold Js.slice. by rewrite fmap_take, fmap_drop, length_fmap. Qed.

(** The titles of the slice of a run, read off the titles of the
    registry. *)
Lemma run_slice_titles direction ms p migrationPos :
  Migration.title <$> run_slice direction ms p migrationPos
  = match direction with
    | Up => Js.slice (Migration.title <$> ms) p (migrationPos + 1)
    | Down => reverse (Js.slice (Migration.title <$> ms) migrationPos p)
    end.
Proof.
  destruct direction; simpl; by rewrite ?fmap_reverse, slice_fmap.
Qed.

Lemma head_attempted direction queue :
  head (attempted direction queue) = head queue.
Proof. by destruct queue. Qed.

Lemma head_titles (queue : list Migration.t) :
  Migration.title <$> head queue = head (Migration.title <$> queue).
Proof. by destruct queue. Qed.

(** X12.  A run in which an executed operation called back with an error
    is not remembered: the table is as it was, so that a later run of the
    same direction and target, on a set with the same titles whatever its
    operations do by then, starts (its SELECT successful) at the same
    position and invokes first the migration the failed run invoked
    first. *)
Theorem failed_run_starts_over
    (env : Env) (direction : Direction) (migrationName : option string)
    (w w' : World) (m : Migration.t) (err : Error) :
  m ∈ executed w (migrate env direction migrationName w) ->
  Migration.op direction m = Failed err ->
  select_error env = None ->
  table w' = table (migrate env direction migrationName w) ->
  Migration.title <$> migrations w' = Migration.title <$> migrations w ->
  table (migrate env direction migrationName w) = table w
  /\ starting_position env w' = starting_position env w
  /\ Migration.title
       <$> head (executed w' (migrate env direction migrationName w'))
     = Migration.title
         <$> head (executed w (migrate env direction migrationName w)).
Proof.
  intros Hin Hop Hs Htable Htitles.
  destruct (migrate_failed_run env direction migrationName w m err Hin Hop)
    as (_ & _ & _ & Ht).
  split; [done|].
  assert (Hsame : starting_position env w' = starting_position env w).
  { apply starting_position_stored; congruence. }
  split; [done|].
  destruct (starting_position env w) as [p|] eqn:Hstart.
  2:{ destruct (migrate_not_entered env direction migrationName w Hstart)
        as (e & [E|E] & _); unfold executed in Hin; rewrite E in Hin;
        simpl in Hin; by apply elem_of_nil in Hin. }
  destruct (run_result env direction migrationName w p Hstart) as [-> _].
  destruct (run_result env direction migrationName w' p Hsame) as [-> _].
  assert (Hlen : length (migrations w') = length (migrations w)).
  { by rewrite <- (length_fmap Migration.title (migrations w')), Htitles,
         length_fmap. }
  assert (Hidx : target_index direction (migrations w') migrationName
                 = target_index direction (migrations w) migrationName).
  { unfold target_index, positionOfMigration. rewrite Hlen.
    by rewrite (positionOfMigration_from_titles _ _ _ _ Htitles). }
  rewrite Hidx. destruct (_ =? -1); [done|].
  by rewrite !head_attempted, !head_titles, !run_slice_titles, Htitles.
Qed.

Lemma failed_run_starts_over_witness :
  starting_position Sample.healthy Sample.repaired = Some 0
  /\ Migration.title
       <$> head (executed Sample.repaired
                   (migrate Sample.healthy Up None Sample.repaired))
     = Some "001"%string.
Proof.
  destruct (failed_run_starts_over Sample.healthy Up None Sample.with_broken
              Sample.repaired Sample.broken Sample.boom) as (_ & Hs & Hh).
  - vm_compute. right. left.
  - reflexivity.
  - reflexivity.
  - reflexivity.
  - reflexivity.
  - split; [exact Hs|exact Hh].
Defined.

(** ** [save] on its own *)

(** X13.  [save] either writes or reports, never both.  When the
    connection is there (assigned before, or made now) and the INSERT
    succeeds, the table holds the registry (its titles without control
    characters) and the position of the set, no error is emitted, and the
    run of [save] ends with [save] and the release of the connection.  Otherwise the table is as it was, [save]
    is not emitted, and exactly one error is: that of the connection or
    that of the INSERT.  The set is never touched. *)
Theorem save_writes_or_reports (env : Env) (w : World) :
  self (save env w) = self w
  /\ (printable_titles (migrations w) ->
      (db w = true \/ connect_error env = None) ->
      upsert_error env = None ->
      table (save env w)
      = Some {| TableRow.migrations := stringify_migrations (migrations w);
                TableRow.pos := pos w |}
      /\ errors (events w (save env w)) = []
      /\ exists before,
           events w (save env w) = before ++ [Emit_save; Db_destroy])
  /\ (forall err,
        (db w = false /\ connect_error env = Some err)
        \/ ((db w = true \/ connect_error env = None)
            /\ upsert_error env = Some err) ->
        table (save env w) = table w
        /\ errors (events w (save env w)) = [err]
        /\ (Emit_save ∉ events w (save env w))).
Proof.
  split; [apply self_save|].
  unfold save, connectDb, saveToDatabase, disconnectDb.
  split.
  - intros _ Hconn Hup. rewrite Hup.
    destruct (db w) eqn:Hdb; simpl.
    + split; [done|].
      erewrite events_app by (simpl; rewrite <- !app_assoc; reflexivity).
      split; [done|]. by eexists [_].
    + destruct Hconn as [|Hc]; [done|]. rewrite Hc. simpl.
      split; [done|].
      erewrite events_app by (simpl; rewrite <- !app_assoc; reflexivity).
      split; [done|]. by eexists [_; _].
  - intros err [[Hdb Hc]|[Hconn Hup]].
    + rewrite Hdb, Hc. simpl. split; [done|].
      erewrite events_app by (simpl; rewrite <- !app_assoc; reflexivity).
      split; [done|]. intros H. log_cases H.
    + rewrite Hup. destruct (db w) eqn:Hdb; simpl.
      * split; [done|].
        erewrite events_app by (simpl; rewrite <- !app_assoc; reflexivity).
        split; [done|]. intros H. log_cases H.
      * destruct Hconn as [|Hc]; [done|]. rewrite Hc. simpl.
        split; [done|].
        erewrite events_app by (simpl; rewrite <- !app_assoc; reflexivity).
        split; [done|]. intros H. log_cases H.
Qed.

Lemma save_writes_or_reports_witness :
  table (save Sample.healthy Sample.fresh)
  = Some (Sample.row_of Sample.registry 0)
  /\ table (save Sample.unreachable Sample.fresh) = None
  /\ errors (events Sample.fresh (save Sample.unreachable Sample.fresh))
     = [{| code := Some "ECONNREFUSED"%string;
           message := "connect ECONNREFUSED" |}].
Proof.
  destruct (save_writes_or_reports Sample.healthy Sample.fresh)
    as (_ & Hok & _).
  destruct (save_writes_or_reports Sample.unreachable Sample.fresh)
    as (_ & _ & Hfail).
  split; [apply Hok; [repeat constructor|by right|reflexivity]|].
  destruct (Hfail {| code := Some "ECONNREFUSED"%string;
                     message := "connect ECONNREFUSED" |}) as (Ht & He & _).
  - left. split; reflexivity.
  - split; [exact Ht|exact He].
Defined.

(** ** Writing and reading the registry *)

Lemma append_assoc (a b c : string) :
  String.append (String.append a b) c = String.append a (String.append b c).
Proof. induction a as [|x a IH]; [done|]. simpl. by rewrite IH. Qed.

Lemma length_append (a b : string) :
  String.length (String.append a b) = (String.length a + String.length b)%nat.
Proof. induction a as [|x a IH]; [done|]. simpl. by rewrite IH. Qed.

(** Reading back an escaped string up to its closing quote. *)
Lemma chars_escape (t tail : string) :
  printable t = true ->
  JSON.chars (String.append (JSON.escape t) (String JSON.dquote tail))
  = Some (t, tail).
Proof.
  induction t as [|c t IH]; intros Hp; simpl in Hp.
  - simpl. reflexivity.
  - apply andb_prop in Hp as [Hc Ht]. apply negb_true_iff in Hc.
    specialize (IH Ht). simpl JSON.escape.
    destruct (Ascii.eqb_spec c JSON.dquote) as [->|Hq].
    + simpl. simpl in IH. by rewrite IH.
    + destruct (Ascii.eqb_spec c JSON.backslash) as [->|Hb].
      * simpl. simpl in IH. by rewrite IH.
      * simpl. destruct (Ascii.eqb_spec c JSON.dquote); [done|].
        destruct (Ascii.eqb_spec c JSON.backslash); [done|].
        rewrite Hc. simpl in IH. by rewrite IH.
Qed.

(** The text of one migration in the stored column. *)
Lemma item_text (m : Migration.t) (tail : string) :
  String.append (stored_item m) tail
  = String "{"
      (String JSON.dquote
         (String.append "title"
            (String JSON.dquote
               (String ":"
                  (String JSON.dquote
                     (String.append (JSON.escape (Migration.title m))
                        (String JSON.dquote (String "}" tail)))))))).
Proof.
  unfold stored_item, JSON.quote. simpl. by rewrite !append_assoc.
Qed.

Lemma chars_title (tail : string) :
  JSON.chars (String.append "title" (String JSON.dquote tail))
  = Some ("title"%string, tail).
Proof. apply (chars_escape "title" tail). reflexivity. Qed.

(** Decoding one stored migration, whatever follows it. *)
Lemma parse_item (fuel : nat) (m : Migration.t) (tail : string) :
  printable (Migration.title m) = true ->
  JSON.parse_value (S (S (S fuel)))
    (String "{"
       (String JSON.dquote
          (String.append "title"
             (String JSON.dquote
                (String ":"
                   (String JSON.dquote
                      (String.append (JSON.escape (Migration.title m))
                         (String JSON.dquote (String "}" tail)))))))))
  = Some (title_object m, tail).
Proof.
  intros Hp.
  lazy -[JSON.chars JSON.escape String.append].
  rewrite chars_title.
  lazy -[JSON.chars JSON.escape String.append].
  rewrite (chars_escape _ _ Hp).
  reflexivity.
Qed.

Lemma stringify_migrations_text (ms : list Migration.t) :
  stringify_migrations ms
  = String "["
      (String.append (String.concat "," (map stored_item ms)) "]").
Proof. reflexivity. Qed.

Lemma parse_items_step f acc s v rest :
  JSON.parse_value f s = Some (v, rest) ->
  JSON.parse_items (S f) acc s
  = match JSON.skip_ws rest with
    | String "," rest' => JSON.parse_items f (v :: acc) rest'
    | String "]" tail => Some (JSON.Array (reverse (v :: acc)), tail)
    | _ => None
    end.
Proof.
  intros H. change (JSON.parse_items (S f) acc s)
    with (match JSON.parse_value f s with
          | Some (v, rest) =>
              match JSON.skip_ws rest with
              | String "," rest' => JSON.parse_items f (v :: acc) rest'
              | String "]" tail => Some (JSON.Array (reverse (v :: acc)), tail)
              | _ => None
              end
          | None => None
          end).
  by rewrite H.
Qed.

(** Decoding the stored migrations one after the other, up to the
    closing bracket. *)
Lemma parse_items_registry (ms : list Migration.t) :
  forall (m : Migration.t) (acc : list JSON.value) (fuel : nat) (tail : string),
    printable_titles (m :: ms) ->
    JSON.parse_items (S (S (S (S (length ms + fuel))))) acc
      (String.append (String.concat "," (map stored_item (m :: ms)))
         (String "]" tail))
    = Some (JSON.Array (reverse acc ++ map title_object (m :: ms)), tail).
Proof.
  induction ms as [|m' ms IH]; intros m acc fuel tail Hp;
    apply Forall_cons in Hp as [Hm Hms].
  - simpl String.concat. rewrite item_text.
    rewrite (parse_items_step _ _ _ _ _ (parse_item _ m _ Hm)).
    lazy -[reverse map app title_object]. by rewrite reverse_cons.
  - change (String.concat "," (map stored_item (m :: m' :: ms)))
      with (String.append (stored_item m)
              (String.append ","
                 (String.concat "," (map stored_item (m' :: ms))))).
    rewrite append_assoc, item_text.
    rewrite (parse_items_step _ _ _ _ _ (parse_item _ m _ Hm)).
    change (JSON.skip_ws (String.append (String.append "," ?x) ?y))
      with (String "," (String.append x y)).
    lazy beta iota.
    change (S (S (S (length (m' :: ms) + fuel))))
      with (S (S (S (S (length ms + fuel))))).
    rewrite (IH m' _ fuel tail Hms), reverse_cons.
    by rewrite <- app_assoc.
Qed.

Lemma concat_length (ms : list Migration.t) :
  (length ms <= String.length (String.concat "," (map stored_item ms)))%nat.
Proof.
  induction ms as [|m ms IH]; [done|].
  destruct ms as [|m' ms].
  - simpl. lia.
  - change (String.concat "," (map stored_item (m :: m' :: ms)))
      with (String.append (stored_item m)
              (String.append ","
                 (String.concat "," (map stored_item (m' :: ms))))).
    rewrite !length_append. simpl in *. lia.
Qed.

(** The stored column decodes to the list of the registry's titles, one
    object for each migration, when no title holds a control character. *)
Lemma parse_stringify_migrations (ms : list Migration.t) :
  printable_titles ms ->
  JSON.parse (stringify_migrations ms)
  = inr (JSON.Array (map title_object ms)).
Proof.
  intros Hp. destruct ms as [|m ms]; [reflexivity|].
  unfold JSON.parse. rewrite stringify_migrations_text.
  pose proof (concat_length (m :: ms)) as Hlen.
  assert (Hfuel : exists fuel,
             (2 * String.length
                    (String "["
                       (String.append
                          (String.concat "," (map stored_item (m :: ms)))
                          "]")) + 2)%nat
             = S (S (S (S (S (length ms + fuel)))))).
  { exists (2 * String.length
                  (String "["
                     (String.append
                        (String.concat "," (map stored_item (m :: ms))) "]"))
            - 3 - length ms)%nat.
    simpl String.length. rewrite length_append. simpl in *. lia. }
  destruct Hfuel as (fuel & ->).
  assert (Hstart : exists c,
             String.append (String.concat "," (map stored_item (m :: ms))) "]"
             = String "{" c).
  { destruct ms as [|m' ms'].
    - eexists. change (String.concat "," (map stored_item [m]))
        with (stored_item m). rewrite item_text. reflexivity.
    - eexists.
      change (String.concat "," (map stored_item (m :: m' :: ms')))
        with (String.append (stored_item m)
                (String.append ","
                   (String.concat "," (map stored_item (m' :: ms'))))).
      rewrite append_assoc, item_text. reflexivity. }
  destruct Hstart as (c & Hc).
  assert (Hvalue :
            JSON.parse_value (S (S (S (S (S (length ms + fuel))))))
              (String "["
                 (String.append
                    (String.concat "," (map stored_item (m :: ms))) "]"))
            = JSON.parse_items (S (S (S (S (length ms + fuel))))) []
                (String.append
                   (String.concat "," (map stored_item (m :: ms))) "]")).
  { rewrite Hc. reflexivity. }
  rewrite Hvalue, (parse_items_registry ms m [] fuel "" Hp). reflexivity.
Qed.

Lemma save_written env w :
  db w = true \/ connect_error env = None ->
  upsert_error env = None ->
  table (save env w) = Some (params_of w).
Proof.
  intros Hconn Hup.
  unfold save, connectDb, saveToDatabase, disconnectDb. rewrite Hup.
  destruct (db w); simpl; [done|]. destruct Hconn as [Hdb | ->]; done.
Qed.

(** The starting position of a run on a table that holds a row written
    for a registry without control characters: the position in the row. *)
Lemma starting_position_saved env w ms p :
  connect_error env = None ->
  select_error env = None ->
  printable_titles ms ->
  table w = Some {| TableRow.migrations := stringify_migrations ms;
                    TableRow.pos := p |} ->
  starting_position env w = Some p.
Proof.
  intros Hc Hs Hp Ht. unfold starting_position, stored_row.
  rewrite Hc, Hs, Ht. simpl. by rewrite (parse_stringify_migrations ms Hp).
Qed.

(** X14.  Round trip of [save] and [load].  After a [save] that wrote
    (the connection there, the INSERT successful), a [load] whose
    connection and SELECT succeed hands its callback no error but the
    position of the set and the titles of its registry, one object for
    each migration in registration order; this for a registry whose
    titles hold no control character. *)
Theorem save_then_load
    (env env' : Env) (fn : Error + Loaded.t -> World -> World) (w : World) :
  printable_titles (migrations w) ->
  db w = true \/ connect_error env = None ->
  upsert_error env = None ->
  connect_error env' = None ->
  select_error env' = None ->
  load env' fn (save env w)
  = fn (inr {| Loaded.migrations :=
                 JSON.Array (map title_object (migrations w));
               Loaded.pos := pos w |})
      (entered (save env w)).
Proof.
  intros Hp Hconn Hup Hc Hs. unfold load, connectDb. rewrite Hc, Hs.
  change (stored_row (record Db_select _)) with (stored_row (save env w)).
  unfold stored_row. rewrite (save_written env w Hconn Hup).
  unfold params_of. simpl TableRow.migrations.
  by rewrite (parse_stringify_migrations _ Hp).
Qed.

Lemma save_then_load_witness :
  load Sample.healthy Sample.keep_position
    (save Sample.healthy (Sample.applied 2))
  = Sample.keep_position
      (inr {| Loaded.migrations :=
                JSON.Array (map title_object Sample.registry);
              Loaded.pos := 0 |})
      (entered (save Sample.healthy (Sample.applied 2))).
Proof.
  apply (save_then_load Sample.healthy Sample.healthy Sample.keep_position
           (Sample.applied 2)).
  - repeat constructor.
  - by right.
  - reflexivity.
  - reflexivity.
  - reflexivity.
Defined.

(** ** Running again after a completed run *)

Lemma slice_again_up {A : Type} (arr : list A) (a b : Z) :
  0 <= a -> 0 <= b ->
  Js.slice arr (a + Z.of_nat (length (Js.slice arr a b))) b = [].
Proof.
  intros Ha Hb. rewrite (slice_take_drop arr a b) by done.
  rewrite slice_take_drop by lia.
  rewrite length_take, length_drop.
  destruct (decide (Z.to_nat b - Z.to_nat a <= length arr - Z.to_nat a)%nat).
  - replace (Z.to_nat b
             - Z.to_nat (a + Z.of_nat
                               ((Z.to_nat b - Z.to_nat a)
                                  `min` (length arr - Z.to_nat a))))%nat
      with 0%nat by lia. done.
  - rewrite drop_ge by lia. by rewrite take_nil.
Qed.

Lemma slice_again_down {A : Type} (arr : list A) (a b : Z) :
  0 <= a -> 0 <= b <= Z.of_nat (length arr) ->
  Js.slice arr a (b - Z.of_nat (length (Js.slice arr a b))) = [].
Proof.
  intros Ha Hb. rewrite (slice_take_drop arr a b) by lia.
  rewrite length_take, length_drop.
  rewrite slice_take_drop by lia.
  replace (Z.to_nat
             (b - Z.of_nat ((Z.to_nat b - Z.to_nat a)
                              `min` (length arr - Z.to_nat a)))
           - Z.to_nat a)%nat with 0%nat by lia.
  done.
Qed.

(** X15.  Running a completed run again does nothing.  When a run that
    starts at a position between 0 and [N] emits [complete] and its
    INSERT succeeds, the same run started again (the SELECT successful,
    the titles without control characters) starts at the position the
    first one ended with, executes no migration and leaves the position
    there. *)
Theorem completed_run_again_runs_nothing
    (env : Env) (direction : Direction) (migrationName : option string)
    (w : World) (p : Z) :
  starting_position env w = Some p ->
  0 <= p <= Z.of_nat (length (migrations w)) ->
  Emit_complete ∈ events w (migrate env direction migrationName w) ->
  upsert_error env = None ->
  select_error env = None ->
  printable_titles (migrations w) ->
  starting_position env (migrate env direction migrationName w)
  = Some (pos (migrate env direction migrationName w))
  /\ executed (migrate env direction migrationName w)
       (migrate env direction migrationName
          (migrate env direction migrationName w))
     = []
  /\ pos (migrate env direction migrationName
            (migrate env direction migrationName w))
     = pos (migrate env direction migrationName w).
Proof.
  intros Hstart Hp Hin Hup Hs Hprint.
  destruct (run_completed env direction migrationName w Hin)
    as (p' & slice & Hstart' & Es & Hidx & _ & Hpos & _ & Ht).
  assert (p' = p) as -> by congruence.
  assert (Hc : connect_error env = None).
  { unfold starting_position in Hstart. by destruct (connect_error env). }
  unfold after_upsert_table in Ht. rewrite Hup in Ht.
  unfold params_of in Ht. rewrite migrations_migrate in Ht.
  pose proof (starting_position_saved env _ _ _ Hc Hs Hprint Ht) as Hstart1.
  split; [done|].
  destruct (run_result env direction migrationName _ _ Hstart1) as [-> ->].
  rewrite migrations_migrate.
  destruct (Z.eqb_spec (target_index direction (migrations w) migrationName)
              (-1)) as [|_]; [lia|].
  assert (Hagain : run_slice direction (migrations w)
                     (pos (migrate env direction migrationName w))
                     (target_index direction (migrations w) migrationName)
                   = []).
  { rewrite Hpos, Es. unfold run_slice, moved. destruct direction.
    - apply slice_again_up; lia.
    - rewrite length_reverse, slice_again_down by lia. done. }
  rewrite Hagain. split; [done|]. destruct direction; simpl; lia.
Qed.

Lemma completed_run_again_runs_nothing_witness :
  starting_position Sample.healthy
    (migrate Sample.healthy Up (Some "002"%string) Sample.fresh)
  = Some 2
  /\ executed (migrate Sample.healthy Up (Some "002"%string) Sample.fresh)
       (migrate Sample.healthy Up (Some "002"%string)
          (migrate Sample.healthy Up (Some "002"%string) Sample.fresh))
     = [].
Proof.
  destruct (completed_run_again_runs_nothing Sample.healthy Up
              (Some "002"%string) Sample.fresh 0) as (Hs & He & _).
  - reflexivity.
  - simpl. lia.
  - vm_compute. do 7 right. left.
  - reflexivity.
  - reflexivity.
  - repeat constructor.
  - split; [exact Hs|exact He].
Defined.

Lemma slice_one {A : Type} (arr : list A) (i : Z) (x : A) :
  0 <= i -> arr !! Z.to_nat i = Some x -> Js.slice arr i (i + 1) = [x].
Proof.
  intros Hi Hx. rewrite slice_take_drop by lia.
  rewrite (drop_S _ _ _ Hx).
  by replace (Z.to_nat (i + 1) - Z.to_nat i)%nat with 1%nat by lia.
Qed.

(** X16.  [down] to a title undoes the migration of that title as well.
    After a completed and saved [up] to a title found at the index [i],
    started at a position from 0 to [i], [down] to the same title
    executes exactly the migration at the index [i] and leaves the
    position at [i]: the pair does not return to the starting position
    unless that was [i]. *)
Theorem up_then_down_same_target
    (env : Env) (t : string) (w : World) (p i : Z) :
  starting_position env w = Some p ->
  0 <= p <= i ->
  t <> EmptyString ->
  positionOfMigration (migrations w) t = i ->
  Emit_complete ∈ events w (up env (Some t) w) ->
  upsert_error env = None ->
  select_error env = None ->
  printable_titles (migrations w) ->
  pos (up env (Some t) w) = i + 1
  /\ pos (down env (Some t) (up env (Some t) w)) = i
  /\ exists m,
       migrations w !! Z.to_nat i = Some m
       /\ executed (up env (Some t) w) (down env (Some t) (up env (Some t) w))
          = [m].
Proof.
  unfold up, down. intros Hstart Hp Ht Hi Hin Hup Hs Hprint.
  assert (Hidx : forall direction,
            target_index direction (migrations w) (Some t) = i).
  { intros direction. unfold target_index. by rewrite (truthy_nonempty t Ht). }
  assert (Hfound : positionOfMigration (migrations w) t <> -1) by lia.
  pose proof (positionOfMigration_range _ _ Hfound) as Hrange.
  rewrite Hi in Hrange.
  destruct (run_completed env Up (Some t) w Hin)
    as (p' & slice & Hstart' & Es & _ & _ & Hpos & _ & Htable).
  assert (p' = p) as -> by congruence.
  rewrite Hidx in Es. unfold run_slice in Es.
  assert (Hpos1 : pos (migrate env Up (Some t) w) = i + 1).
  { rewrite Hpos, Es. unfold moved.
    pose proof (slice_length (migrations w) p (i + 1)). lia. }
  split; [done|].
  assert (Hc : connect_error env = None).
  { unfold starting_position in Hstart. by destruct (connect_error env). }
  unfold after_upsert_table in Htable. rewrite Hup in Htable.
  unfold params_of in Htable. rewrite migrations_migrate in Htable.
  pose proof (starting_position_saved env _ _ _ Hc Hs Hprint Htable) as Hstart1.
  destruct (run_result env Down (Some t) _ _ Hstart1) as [-> ->].
  rewrite migrations_migrate, Hidx, Hpos1.
  destruct (Z.eqb_spec i (-1)) as [|_]; [lia|].
  destruct (migrations w !! Z.to_nat i) as [m|] eqn:Hm.
  2:{ apply lookup_ge_None in Hm. lia. }
  unfold run_slice. rewrite (slice_one _ _ _ (proj1 Hrange) Hm).
  split; [simpl; lia|]. exists m. split; [done|]. simpl.
  by destruct (Migration.down m).
Qed.

Lemma up_then_down_same_target_witness :
  pos (up Sample.healthy (Some "002"%string) Sample.fresh) = 2
  /\ pos (down Sample.healthy (Some "002"%string)
            (up Sample.healthy (Some "002"%string) Sample.fresh)) = 1
  /\ exists m,
       migrations Sample.fresh !! Z.to_nat 1 = Some m
       /\ executed (up Sample.healthy (Some "002"%string) Sample.fresh)
            (down Sample.healthy (Some "002"%string)
               (up Sample.healthy (Some "002"%string) Sample.fresh))
          = [m].
Proof.
  apply (up_then_down_same_target Sample.healthy "002" Sample.fresh 0 1).
  - reflexivity.
  - lia.
  - discriminate.
  - reflexivity.
  - vm_compute. do 7 right. left.
  - reflexivity.
  - reflexivity.
  - repeat constructor.
Defined.

(** ** What listeners see *)

Lemma announced_app l1 l2 :
  announced (l1 ++ l2) = announced l1 ++ announced l2.
Proof.
  induction l1 as [|e l1 IH]; [done|].
  destruct e; simpl; by rewrite IH.
Qed.

Lemma announced_steps direction p queue :
  announced (queue ≫= step_events direction p) = queue.
Proof.
  induction queue as [|m queue IH]; [done|].
  by rewrite bind_cons, announced_app, IH.
Qed.

(** A run's log with its opening and closing named, as [migrate_events]
    has it, the two holding no [migration] event either. *)
Lemma migrate_events_announced env direction migrationName w :
  exists opening ran closing,
    events w (migrate env direction migrationName w)
    = opening
      ++ (ran ≫= step_events direction
                   (pos (migrate env direction migrationName w)))
      ++ closing
    /\ invoked opening = [] /\ invoked closing = []
    /\ announced opening = [] /\ announced closing = []
    /\ (forall e, e ∈ opening ++ closing ->
         forall m d, e <> Emit_migration m d /\ forall q, e <> Invoke m d q).
Proof.
  assert (Hother : forall l : list Event,
            Forall (fun e => match e with
                             | Emit_migration _ _ | Invoke _ _ _ => False
                             | _ => True
                             end) l ->
            forall e, e ∈ l ->
            forall m d, e <> Emit_migration m d /\ forall q, e <> Invoke m d q).
  { intros l Hl e He m d. apply (proj1 (Forall_forall _ _) Hl) in He.
    split; [|intros q]; intros ->; done. }
  assert (Hfinish : forall opening ran closing,
            events w (migrate env direction migrationName w)
            = opening
              ++ (ran ≫= step_events direction
                           (pos (migrate env direction migrationName w)))
              ++ closing ->
            Forall (fun e => match e with
                             | Emit_migration _ _ | Invoke _ _ _ => False
                             | _ => True
                             end) (opening ++ closing) ->
            exists opening ran closing,
              events w (migrate env direction migrationName w)
              = opening
                ++ (ran ≫= step_events direction
                             (pos (migrate env direction migrationName w)))
                ++ closing
              /\ invoked opening = [] /\ invoked closing = []
              /\ announced opening = [] /\ announced closing = []
              /\ (forall e, e ∈ opening ++ closing ->
                   forall m d,
                     e <> Emit_migration m d /\ forall q, e <> Invoke m d q)).
  { intros opening ran closing E Hl. exists opening, ran, closing.
    split; [done|]. apply Forall_app in Hl as Hl'. destruct Hl' as [Ho Hc].
    assert (Hnone : forall l : list Event,
              Forall (fun e => match e with
                               | Emit_migration _ _ | Invoke _ _ _ => False
                               | _ => True
                               end) l ->
              invoked l = [] /\ announced l = []).
    { induction 1 as [|e l He _ [IH1 IH2]]; [done|]. by destruct e. }
    destruct (Hnone _ Ho), (Hnone _ Hc). repeat split; try done;
      by eapply (Hother _ Hl). }
  destruct (starting_position env w) as [p|] eqn:Hstart.
  - destruct (run_shape env direction migrationName w p Hstart)
      as [(_ & _ & E & _)|(slice & _ & _ & _ & Hend)].
    + apply (Hfinish (events w (migrate env direction migrationName w)) [] []);
        [simpl; by rewrite app_nil_r|].
      rewrite E. repeat constructor.
    + destruct Hend as [(_ & E & _)|(pre & m & post & _ & _ & _ & Hend)].
      * apply (Hfinish _ _ _ E). unfold after_upsert.
        destruct (upsert_error env); repeat constructor.
      * destruct Hend as [(err & _ & E)|(_ & E)].
        -- apply (Hfinish _ _ _ E). repeat constructor.
        -- apply (Hfinish [Emit_load; Db_connect; Db_select] (pre ++ [m]) []);
             [by rewrite app_nil_r|].
           repeat constructor.
  - destruct (migrate_not_entered env direction migrationName w Hstart)
      as (err & [E|E] & _);
      (apply (Hfinish (events w (migrate env direction migrationName w)) [] []);
       [simpl; by rewrite app_nil_r|]);
      rewrite E; repeat constructor.
Qed.

(** X17.  Every operation a run invokes was announced with the
    [migration] event, and nothing else was: the migrations announced
    are the migrations executed, in the same order. *)
Theorem announced_is_executed
    (env : Env) (direction : Direction) (migrationName : option string)
    (w : World) :
  announced (events w (migrate env direction migrationName w))
  = executed w (migrate env direction migrationName w).
Proof.
  destruct (migrate_events_announced env direction migrationName w)
    as (opening & ran & closing & E & Io & Ic & Ao & Ac & _).
  unfold executed. rewrite E, !announced_app, !invoked_app.
  by rewrite announced_steps, invoked_steps, Io, Ic, Ao, Ac.
Qed.

(** X18.  A run only ever invokes, and announces, operations of its own
    direction: a run of [up] calls no [down] and a run of [down] no [up],
    also after an operation has failed. *)
Theorem run_keeps_direction
    (env : Env) (direction : Direction) (migrationName : option string)
    (w : World) (m : Migration.t) (d : Direction) :
  (forall q, Invoke m d q ∈ events w (migrate env direction migrationName w) ->
             d = direction)
  /\ (Emit_migration m d ∈ events w (migrate env direction migrationName w) ->
      d = direction).
Proof.
  destruct (migrate_events_announced env direction migrationName w)
    as (opening & ran & closing & E & _ & _ & _ & _ & Hother).
  rewrite E.
  assert (Hcases : forall e,
            e ∈ opening
                ++ (ran ≫= step_events direction
                             (pos (migrate env direction migrationName w)))
                ++ closing ->
            e ∈ opening ++ closing
            \/ ((exists m', e = Emit_migration m' direction)
                \/ exists m', e = Invoke m' direction
                                    (pos (migrate env direction
                                            migrationName w)))).
  { intros e He.
    apply elem_of_app in He as [He|He]; [left; apply elem_of_app; by left|].
    apply elem_of_app in He as [He|He];
      [right; by apply steps_only in He|left; apply elem_of_app; by right]. }
  split.
  - intros q Hin. apply Hcases in Hin as [Hin|[[m' Hin]|[m' Hin]]].
    + destruct (Hother _ Hin m d) as [_ H']. by destruct (H' q).
    + discriminate.
    + by injection Hin.
  - intros Hin. apply Hcases in Hin as [Hin|[[m' Hin]|[m' Hin]]].
    + by destruct (Hother _ Hin m d) as [H' _].
    + by injection Hin.
    + discriminate.
Qed.

Lemma run_keeps_direction_witness :
  Invoke Sample.broken Up 3
    ∈ events Sample.with_broken
        (migrate Sample.healthy Up None Sample.with_broken)
  /\ Up = Up.
Proof.
  assert (H : Invoke Sample.broken Up 3
                ∈ events Sample.with_broken
                    (migrate Sample.healthy Up None Sample.with_broken)).
  { vm_compute. do 6 right. left. }
  split; [exact H|].
  exact (proj1 (run_keeps_direction Sample.healthy Up None Sample.with_broken
                  Sample.broken Up) 3 H).
Defined.

(** ** A stored position beyond the registry *)

(** X19.  When the stored position [p] lies beyond the [N] registered
    migrations (and within the integers the numbers of JavaScript hold
    exactly), the run does not bring it back into range: [up()]
    executes nothing and leaves [p]; [down()] takes the whole registry
    for its slice and leaves [p - N], not 0, executing all [N] migrations
    in reverse order when their operations call back without error. *)
Theorem position_beyond_registry (env : Env) (w : World) (p : Z) :
  starting_position env w = Some p ->
  Z.of_nat (length (migrations w)) < p <= MAX_SAFE_INTEGER ->
  (executed w (up env None w) = [] /\ pos (up env None w) = p)
  /\ pos (down env None w) = p - Z.of_nat (length (migrations w))
  /\ (all_done Down (reverse (migrations w)) ->
      executed w (down env None w) = reverse (migrations w)).
Proof.
  intros Hstart Hp. unfold up, down.
  destruct (run_result env Up None w p Hstart) as [-> ->].
  destruct (run_result env Down None w p Hstart) as [-> ->].
  unfold target_index, run_slice. simpl Js.truthy. cbv iota.
  destruct (Z.eqb_spec (Z.of_nat (length (migrations w))) (-1)) as [|_]; [lia|].
  simpl (0 =? -1).  cbv iota.
  assert (Hup : Js.slice (migrations w) p
                  (Z.of_nat (length (migrations w)) + 1) = []).
  { rewrite slice_take_drop by lia. rewrite drop_ge by lia. apply take_nil. }
  assert (Hdown : Js.slice (migrations w) 0 p = migrations w).
  { rewrite slice_take_drop by lia. simpl drop. apply take_ge. lia. }
  rewrite Hup, Hdown, length_reverse. simpl.
  repeat split; try lia. apply attempted_all_done.
Qed.

Lemma position_beyond_registry_witness :
  (executed Sample.beyond_end (up Sample.healthy None Sample.beyond_end) = []
   /\ pos (up Sample.healthy None Sample.beyond_end) = 5)
  /\ pos (down Sample.healthy None Sample.beyond_end) = 5 - 3
  /\ executed Sample.beyond_end (down Sample.healthy None Sample.beyond_end)
     = [Sample.m003; Sample.m002; Sample.m001].
Proof.
  destruct (position_beyond_registry Sample.healthy Sample.beyond_end 5)
    as (Hup & Hpos & Hrun); [reflexivity|vm_compute; split; congruence|].
  split; [exact Hup|]. split; [exact Hpos|].
  apply Hrun. repeat constructor.
Defined.
